(** * The temporal document store of beads (package [convex])

    A shallow embedding of the Convex-style persistence layer:
    timestamps and key intervals (types.go), the index key encoders
    (indexes.go), the SQL text of schema.go read as relational queries over
    lists of rows, and the SQLite-backed store of sqlite.go.

    Conventions.
    - [Timestamp] is Go's [int64], carried as a [Z]; the one place where the
      source computes on it ([ts + 1] in [After]) wraps explicitly.
    - A Go [[]byte] whose nil-ness the code inspects is an
      [option (list byte)] ([None] is the nil slice); where only [len] and
      the contents are read it is a [list byte].
    - A table is the list of its rows in insertion order.  The embedded
      engine is taken to be healthy: the only statement failures are
      constraint violations (PRIMARY KEY, NOT NULL); I/O errors and
      cancellation are outside the model. *)

From Stdlib Require Import ZArith NArith Lia.
From Stdlib Require Strings.Byte.
From stdpp Require Import base option list sorting strings gmap pretty.

Local Open Scope Z_scope.

(** ** Timestamps and ranges (types.go) *)

Definition Timestamp : Type := Z.

(** Two's-complement reduction to [int64]. *)
Definition wrapInt64 (z : Z) : Z := (z + 2 ^ 63) `mod` 2 ^ 64 - 2 ^ 63.

Definition isInt64 (z : Z) : Prop := - 2 ^ 63 <= z < 2 ^ 63.

Definition MaxTimestamp : Timestamp := 2 ^ 63 - 1.

Record TimestampRange : Type := mkTimestampRange {
  RangeStart : Timestamp;
  RangeEnd : Timestamp
}.

Definition AllTime : TimestampRange :=
  {| RangeStart := 0; RangeEnd := MaxTimestamp |}.

Definition AtOrBefore (ts : Timestamp) : TimestampRange :=
  {| RangeStart := 0; RangeEnd := ts |}.

Definition After (ts : Timestamp) : TimestampRange :=
  {| RangeStart := wrapInt64 (ts + 1); RangeEnd := MaxTimestamp |}.

Definition Contains (r : TimestampRange) (ts : Timestamp) : bool :=
  (ts >=? RangeStart r) && (ts <=? RangeEnd r).

(** ** Byte strings and key intervals (types.go) *)

Abbreviation byte := Byte.byte.

Definition byteVal (b : byte) : Z := Z.of_N (Byte.to_N b).

(** The byte with value [z mod 256]: Go's conversion [byte(z)]. *)
Definition byteOf (z : Z) : byte :=
  default Byte.x00 (Byte.of_N (Z.to_N (z `mod` 256))).

(** [memcmp] followed by the lengths: how the engine orders BLOBs. *)
Fixpoint bytesCompare (a b : list byte) : comparison :=
  match a, b with
  | [], [] => Eq
  | [], _ :: _ => Lt
  | _ :: _, [] => Gt
  | x :: a', y :: b' =>
      match byteVal x ?= byteVal y with
      | Eq => bytesCompare a' b'
      | c => c
      end
  end.

Definition bytesLt (a b : list byte) : bool :=
  match bytesCompare a b with Lt => true | _ => false end.

Definition bytesGe (a b : list byte) : bool := negb (bytesLt a b).

Record Interval : Type := mkInterval {
  IntervalStart : option (list byte);
  IntervalEnd : option (list byte)
}.

Definition All : Interval :=
  {| IntervalStart := None; IntervalEnd := None |}.

(** The loop of [Prefix], entered with [n = i + 1]:
    [for i := len(end) - 1; i >= 0; i--]. *)
Fixpoint prefixLoop (end_ : list byte) (n : nat) : option (list byte) :=
  match n with
  | O => None
  | S i =>
      match end_ !! i with
      | Some b =>
          if byteVal b <? 255
          then Some (take (S i) (<[i := byteOf (byteVal b + 1)]> end_))
          else prefixLoop end_ i
      | None => None
      end
  end.

Definition Prefix (prefix : list byte) : Interval :=
  if decide (length prefix = 0%nat) then All
  else
    match prefixLoop prefix (length prefix) with
    | Some end_ => {| IntervalStart := Some prefix; IntervalEnd := Some end_ |}
    | None => {| IntervalStart := Some prefix; IntervalEnd := None |}
    end.

(** The key-range fragment of [IndexScanQuery]'s WHERE clause,
    [key >= ? AND (? IS NULL OR key < ?)], on its three bindings. *)
Definition keyInRange (startKey : list byte) (endKey : option (list byte))
    (key : list byte) : bool :=
  bytesGe key startKey
  && match endKey with
     | None => true
     | Some e => bytesLt key e
     end.

(** Membership of a key in an interval: [keyInRange] on the bindings
    [IndexScan] prepares (a nil [Start] is bound as the empty blob, a nil
    [End] as NULL). *)
Definition keyInInterval (iv : Interval) (key : list byte) : bool :=
  keyInRange (default [] (IntervalStart iv)) (IntervalEnd iv) key.

(** ** Index keys (indexes.go) *)

(** [uint16(priority)], big-endian, then the [0x00] sentinel. *)
Definition PriorityIndexKey (priority : Z) : list byte :=
  let v := priority `mod` 2 ^ 16 in
  [byteOf (v ≫ 8); byteOf v; Byte.x00].

(** ** Log entries and query results (types.go) *)

Record DocumentLogEntry : Type := mkDocumentLogEntry {
  docTS : Timestamp;
  docID : string;
  docTableID : string;
  docValue : option string;      (* json.RawMessage; [None] is nil *)
  docDeleted : bool;
  docPrevTS : option Timestamp   (* *Timestamp *)
}.

Definition IsDeleted (d : DocumentLogEntry) : bool :=
  docDeleted d || bool_decide (docValue d = None).

Record IndexEntry : Type := mkIndexEntry {
  idxIndexID : string;
  idxTS : Timestamp;
  idxKey : option (list byte);
  idxDeleted : bool;
  idxTableID : string;
  idxDocumentID : string
}.

Inductive Order : Type := Asc | Desc.

Record IndexResult : Type := mkIndexResult {
  resKey : option (list byte);
  resDocument : option DocumentLogEntry   (* *DocumentLogEntry *)
}.

Definition GlobalSchemaVersion : string := "schema_version".
Definition GlobalMaxRepeatableTS : string := "max_repeatable_ts".

(** ** The persisted tables (schema.go, [Schema]) *)

Record DocumentRow : Type := mkDocumentRow {
  row_id : string;
  row_ts : Z;
  row_table_id : string;
  row_json_value : option string;   (* NULL for tombstones *)
  row_deleted : Z;
  row_prev_ts : option Z
}.

Record IndexRow : Type := mkIndexRow {
  irow_index_id : string;
  irow_ts : Z;
  irow_key : list byte;             (* BLOB NOT NULL *)
  irow_deleted : Z;
  irow_table_id : string;
  irow_document_id : string
}.

Record Database : Type := mkDatabase {
  documents : list DocumentRow;
  indexes : list IndexRow;
  persistence_globals : gmap string string
}.

(** What [Schema] leaves on a new file: three empty tables. *)
Definition emptyDatabase : Database :=
  {| documents := []; indexes := []; persistence_globals := ∅ |}.

Definition SchemaVersion : Z := 1.

#[global] Instance byte_eq_dec : EqDecision byte := Byte.byte_eq_dec.

(** PRIMARY KEY (ts, table_id, id) *)
Definition sameDocumentKey (a b : DocumentRow) : Prop :=
  row_ts a = row_ts b ∧ row_table_id a = row_table_id b ∧ row_id a = row_id b.

(** PRIMARY KEY (index_id, key, ts) *)
Definition sameIndexKey (a b : IndexRow) : Prop :=
  irow_index_id a = irow_index_id b ∧ irow_key a = irow_key b
  ∧ irow_ts a = irow_ts b.

#[global] Instance sameDocumentKey_dec a b : Decision (sameDocumentKey a b).
Proof. unfold sameDocumentKey. apply _. Defined.

#[global] Instance sameIndexKey_dec a b : Decision (sameIndexKey a b).
Proof. unfold sameIndexKey. apply _. Defined.

Inductive SqlError : Type :=
  | ConstraintPrimaryKey
  | ConstraintNotNull.

(** [InsertDocumentQuery] on one row of bindings. *)
Definition execInsertDocument (db : Database) (r : DocumentRow)
    : SqlError + Database :=
  if decide (Exists (sameDocumentKey r) (documents db))
  then inl ConstraintPrimaryKey
  else inr {| documents := documents db ++ [r];
              indexes := indexes db;
              persistence_globals := persistence_globals db |}.

(** [InsertIndexQuery]; the driver binds a nil [[]byte] as NULL. *)
Definition execInsertIndex (db : Database) (index_id : string) (ts : Z)
    (key : option (list byte)) (deleted : Z) (table_id document_id : string)
    : SqlError + Database :=
  match key with
  | None => inl ConstraintNotNull
  | Some k =>
      let r := {| irow_index_id := index_id; irow_ts := ts; irow_key := k;
                  irow_deleted := deleted; irow_table_id := table_id;
                  irow_document_id := document_id |} in
      if decide (Exists (sameIndexKey r) (indexes db))
      then inl ConstraintPrimaryKey
      else inr {| documents := documents db;
                  indexes := indexes db ++ [r];
                  persistence_globals := persistence_globals db |}
  end.

(** [SetGlobalQuery]: INSERT OR REPLACE. *)
Definition execSetGlobal (db : Database) (key value : string) : Database :=
  {| documents := documents db;
     indexes := indexes db;
     persistence_globals := <[key := value]> (persistence_globals db) |}.

(** ** Opening a store (sqlite.go, [NewSQLitePersistence]) *)

(** The files of the host, by path. *)
Definition FileSystem : Type := gmap string Database.

Record SQLitePersistence : Type := mkSQLitePersistence {
  dbPath : string;
  fresh : bool
}.

Definition NewSQLitePersistence (fs : FileSystem) (path : string)
    : SQLitePersistence * FileSystem :=
  match fs !! path with
  | None =>
      (* os.IsNotExist: create, run Schema, stamp the version *)
      let db := emptyDatabase in
      let versionJSON := pretty SchemaVersion in
      let db := execSetGlobal db GlobalSchemaVersion versionJSON in
      ({| dbPath := path; fresh := true |}, <[path := db]> fs)
  | Some _ =>
      ({| dbPath := path; fresh := false |}, fs)
  end.


Definition WriteGlobal (db : Database) (key value : string) : Database :=
  execSetGlobal db key value.

Definition GetGlobal (db : Database) (key : string) : option string :=
  persistence_globals db !! key.

(** ** The atomic writer (sqlite.go, [Write]) *)

Inductive WriteError : Type :=
  | ErrInsertingDocument (id : string) (cause : SqlError)
  | ErrInsertingIndexEntry (cause : SqlError).

Definition documentRow (doc : DocumentLogEntry) : DocumentRow :=
  {| row_id := docID doc;
     row_ts := docTS doc;
     row_table_id := docTableID doc;
     row_json_value := docValue doc;
     row_deleted := if docDeleted doc then 1 else 0;
     row_prev_ts := docPrevTS doc |}.

Fixpoint insertDocuments (tx : Database) (docs : list DocumentLogEntry)
    : WriteError + Database :=
  match docs with
  | [] => inr tx
  | doc :: rest =>
      match execInsertDocument tx (documentRow doc) with
      | inl err => inl (ErrInsertingDocument (docID doc) err)
      | inr tx' => insertDocuments tx' rest
      end
  end.

Fixpoint insertIndexes (tx : Database) (idxs : list IndexEntry)
    : WriteError + Database :=
  match idxs with
  | [] => inr tx
  | idx :: rest =>
      match execInsertIndex tx (idxIndexID idx) (idxTS idx) (idxKey idx)
              (if idxDeleted idx then 1 else 0)
              (idxTableID idx) (idxDocumentID idx) with
      | inl err => inl (ErrInsertingIndexEntry err)
      | inr tx' => insertIndexes tx' rest
      end
  end.

(** The transaction body between [BeginTx] and [Commit]. *)
Definition writeTx (tx : Database) (docs : list DocumentLogEntry)
    (idxs : list IndexEntry) : WriteError + Database :=
  match insertDocuments tx docs with
  | inl err => inl err
  | inr tx' =>
      if decide (0 < length idxs)%nat then insertIndexes tx' idxs else inr tx'
  end.

(** [Write]: the error returned ([None] is nil) and the persisted state.
    An error return runs the deferred [tx.Rollback()]. *)
Definition Write (db : Database) (docs : list DocumentLogEntry)
    (idxs : list IndexEntry) : option WriteError * Database :=
  match writeTx db docs idxs with
  | inl err => (Some err, db)
  | inr tx => (None, tx)
  end.

(** ** The as-of reader (sqlite.go, [sqliteReader]; queries of schema.go) *)

(** [rows.Scan] into a [DocumentLogEntry] and the conversions after it. *)
Definition scanDocument (r : DocumentRow) : DocumentLogEntry :=
  {| docTS := row_ts r;
     docID := row_id r;
     docTableID := row_table_id r;
     docValue := row_json_value r;
     docDeleted := bool_decide (row_deleted r = 1);
     docPrevTS := row_prev_ts r |}.

(** [ORDER BY ts DESC LIMIT 1]: a row of greatest [ts], if there is a row. *)
Fixpoint latestRow (rows : list DocumentRow) : option DocumentRow :=
  match rows with
  | [] => None
  | r :: rest =>
      match latestRow rest with
      | Some best => if decide (row_ts best <= row_ts r) then Some r else Some best
      | None => Some r
      end
  end.

Definition LatestDocumentQuery (db : Database) (table_id id : string)
    : option DocumentRow :=
  latestRow
    (filter (λ r, row_table_id r = table_id ∧ row_id r = id ∧ row_deleted r = 0)
       (documents db)).

Definition LatestDocumentAtTSQuery (db : Database) (table_id id : string)
    (ts : Z) : option DocumentRow :=
  latestRow
    (filter (λ r, row_table_id r = table_id ∧ row_id r = id ∧ row_ts r <= ts)
       (documents db)).

(** [GetDocument]; a nil result is [None].  [atTS] is the [*Timestamp]. *)
Definition GetDocument (db : Database) (tableID docID : string)
    (atTS : option Timestamp) : option DocumentLogEntry :=
  let found :=
    match atTS with
    | Some ts => LatestDocumentAtTSQuery db tableID docID ts
    | None => LatestDocumentQuery db tableID docID
    end in
  match found with
  | None => None                       (* sql.ErrNoRows *)
  | Some r =>
      let doc := scanDocument r in
      if docDeleted doc then None else Some doc
  end.

(** [GetDocuments]: the result map; missing ids are left out. *)
Definition GetDocuments (db : Database) (tableID : string)
    (docIDs : list string) (atTS : option Timestamp)
    : gmap string DocumentLogEntry :=
  foldl (λ result id,
           match GetDocument db tableID id atTS with
           | Some doc => <[id := doc]> result
           | None => result
           end) ∅ docIDs.

(** *** [IndexScanQuery] *)

(** PARTITION BY index_id, key *)
Definition samePartition (a b : IndexRow) : Prop :=
  irow_index_id a = irow_index_id b ∧ irow_key a = irow_key b.

#[global] Instance samePartition_dec a b : Decision (samePartition a b).
Proof. unfold samePartition. apply _. Defined.

(** [ROW_NUMBER() OVER (PARTITION BY index_id, key ORDER BY ts DESC)]:
    one more than the number of rows of the partition ordered before this
    one; rows of equal [ts] keep their order in the table. *)
Fixpoint rowNumbers (before rows : list IndexRow) : list (IndexRow * Z) :=
  match rows with
  | [] => []
  | i :: after =>
      (i, 1
          + Z.of_nat (length (filter
               (λ j, samePartition j i ∧ irow_ts i <= irow_ts j) before))
          + Z.of_nat (length (filter
               (λ j, samePartition j i ∧ irow_ts i < irow_ts j) after)))
      :: rowNumbers (before ++ [i]) after
  end.

(** The CTE [latest_index] of [IndexScanQuery]. *)
Definition latestIndexScan (db : Database) (index_id : string)
    (startKey : list byte) (endKey : option (list byte)) (read_ts : Z)
    : list (IndexRow * Z) :=
  rowNumbers []
    (filter (λ i, irow_index_id i = index_id
                  ∧ keyInRange startKey endKey (irow_key i) = true
                  ∧ irow_ts i <= read_ts)
       (indexes db)).

(** [SELECT MAX(ts) FROM documents WHERE table_id = ? AND id = ?
    AND ts <= ? AND deleted = 0]; [None] is NULL (no such row). *)
Definition maxLiveTS (db : Database) (table_id id : string) (read_ts : Z)
    : option Z :=
  foldr (λ r acc, Some (match acc with
                        | Some m => Z.max (row_ts r) m
                        | None => row_ts r
                        end))
    None
    (filter (λ r, row_table_id r = table_id ∧ row_id r = id
                  ∧ row_ts r <= read_ts ∧ row_deleted r = 0)
       (documents db)).

(** The JOIN of one [latest_index] row with [documents] under the ON
    condition and the [d]-part of the WHERE clause. *)
Definition joinDocuments (db : Database) (read_ts : Z) (i : IndexRow)
    : list (IndexRow * DocumentRow) :=
  pair i <$>
    (filter (λ d, row_table_id d = irow_table_id i
                  ∧ row_id d = irow_document_id i
                  ∧ row_deleted d = 0
                  ∧ Some (row_ts d)
                    = maxLiveTS db (irow_table_id i) (irow_document_id i) read_ts)
       (documents db)).

Definition keyBefore (order : Order) (a b : list byte) : bool :=
  match order with
  | Asc => bytesLt a b
  | Desc => bytesLt b a
  end.

(** [ORDER BY i.key ASC|DESC], as a stable insertion sort. *)
Fixpoint insertByKey (order : Order) (x : IndexRow * DocumentRow)
    (l : list (IndexRow * DocumentRow)) : list (IndexRow * DocumentRow) :=
  match l with
  | [] => [x]
  | y :: l' =>
      if keyBefore order (irow_key y.1) (irow_key x.1)
      then y :: insertByKey order x l'
      else x :: y :: l'
  end.

Definition orderByKey (order : Order) (l : list (IndexRow * DocumentRow))
    : list (IndexRow * DocumentRow) :=
  foldr (insertByKey order) [] l.

(** [LIMIT ?]: a negative bound is no bound. *)
Definition limitRows {A : Type} (limit : Z) (l : list A) : list A :=
  if decide (limit < 0) then l else take (Z.to_nat limit) l.

(** The rows [IndexScanQuery] yields, each with the [latest_index] row it
    was joined from (the SELECT list keeps only the [d] columns). *)
Definition indexScanRows (db : Database) (index_id : string)
    (startKey : list byte) (endKey : option (list byte)) (read_ts : Z)
    (order : Order) (limit : Z) : list (IndexRow * DocumentRow) :=
  let latest_index := latestIndexScan db index_id startKey endKey read_ts in
  let winners :=
    filter (λ irn : IndexRow * Z, irn.2 = 1 ∧ irow_deleted irn.1 = 0)
      latest_index in
  limitRows limit
    (orderByKey order
       (winners ≫= λ irn : IndexRow * Z, joinDocuments db read_ts irn.1)).

Definition IndexScanQuery (db : Database) (index_id : string)
    (startKey : list byte) (endKey : option (list byte)) (read_ts : Z)
    (order : Order) (limit : Z) : list DocumentRow :=
  snd <$> indexScanRows db index_id startKey endKey read_ts order limit.

(** [IndexScan]; [now] is what [Now()] returns when [readTS] is 0. *)
Definition IndexScan (db : Database) (now : Timestamp) (indexID : string)
    (interval : Interval) (readTS : Timestamp) (order : Order) (limit : Z)
    : list IndexResult :=
  let readTS := if decide (readTS = 0) then now else readTS in
  let endKey := IntervalEnd interval in
  let startKey := default [] (IntervalStart interval) in
  (λ r, {| resKey := None; resDocument := Some (scanDocument r) |})
    <$> IndexScanQuery db indexID startKey endKey readTS order limit.

(** *** [IndexGetQuery] *)

(** [ORDER BY ts DESC LIMIT 1] over index rows. *)
Fixpoint latestIndexRow (rows : list IndexRow) : option IndexRow :=
  match rows with
  | [] => None
  | r :: rest =>
      match latestIndexRow rest with
      | Some best =>
          if decide (irow_ts best <= irow_ts r) then Some r else Some best
      | None => Some r
      end
  end.

(** The [key] binding is NULL for a nil slice, and [key = NULL] holds of
    no row. *)
Definition IndexGetQuery (db : Database) (index_id : string)
    (key : option (list byte)) (read_ts : Z) : option DocumentRow :=
  let latest_index :=
    latestIndexRow
      (filter (λ i, irow_index_id i = index_id ∧ Some (irow_key i) = key
                    ∧ irow_ts i <= read_ts)
         (indexes db)) in
  match latest_index with
  | None => None
  | Some i =>
      if decide (irow_deleted i = 0)
      then head (snd <$> joinDocuments db read_ts i)   (* LIMIT 1 *)
      else None
  end.

Definition IndexGet (db : Database) (now : Timestamp) (indexID : string)
    (key : option (list byte)) (readTS : Timestamp)
    : option DocumentLogEntry :=
  let readTS := if decide (readTS = 0) then now else readTS in
  match IndexGetQuery db indexID key readTS with
  | None => None                       (* sql.ErrNoRows *)
  | Some r => Some (scanDocument r)
  end.

(** ** Scenario data: issue [bd-1], created, then deleted *)

Definition bytesOf (s : string) : list byte := String.list_byte_of_string s.

Definition issueOpen : DocumentLogEntry :=
  {| docTS := 100; docID := "bd-1"; docTableID := "issues";
     docValue := Some "open"; docDeleted := false; docPrevTS := None |}.

Definition issueTombstone : DocumentLogEntry :=
  {| docTS := 200; docID := "bd-1"; docTableID := "issues";
     docValue := None; docDeleted := true; docPrevTS := Some 100 |}.

Definition openKey : list byte := bytesOf "open" ++ [Byte.x00].

Definition issueOpenIndex : IndexEntry :=
  {| idxIndexID := "issues_by_status"; idxTS := 100; idxKey := Some openKey;
     idxDeleted := false; idxTableID := "issues"; idxDocumentID := "bd-1" |}.

(** The store after the issue and its status index entry are written at
    100 and, at 200, the tombstone alone, as [DeleteIssue] writes it (no
    index entry). *)
Definition deletedIssueStore : Database :=
  (Write (Write emptyDatabase [issueOpen] [issueOpenIndex]).2
     [issueTombstone] []).2.

(** The store after the write at 100 alone. *)
Definition createdIssueStore : Database :=
  (Write emptyDatabase [issueOpen] [issueOpenIndex]).2.

(** A store file stamped with a version one above [SchemaVersion]. *)
Definition storeAtVersion2 : Database :=
  execSetGlobal emptyDatabase GlobalSchemaVersion "2".

Definition hostWithVersion2 : FileSystem := {["beads.db" := storeAtVersion2]}.

(** The successor of a prefix by structural recursion: what [prefixLoop]
    finds scanning from the right (see [prefixLoop_take]). *)
Fixpoint prefixSucc (p : list byte) : option (list byte) :=
  match p with
  | [] => None
  | b :: r =>
      match prefixSucc r with
      | Some e => Some (b :: e)
      | None =>
          if byteVal b <? 255 then Some [byteOf (byteVal b + 1)] else None
      end
  end.

(** ** The rest of types.go and of the reader *)

Definition OrderString (o : Order) : string :=
  match o with
  | Desc => "DESC"
  | Asc => "ASC"
  end.

(** [ORDER BY ts ASC|DESC], as a stable insertion sort. *)
Definition tsBefore (order : Order) (a b : Z) : bool :=
  match order with
  | Asc => a <? b
  | Desc => b <? a
  end.

Fixpoint insertByTS (order : Order) (x : DocumentRow) (l : list DocumentRow)
    : list DocumentRow :=
  match l with
  | [] => [x]
  | y :: l' =>
      if tsBefore order (row_ts y) (row_ts x)
      then y :: insertByTS order x l'
      else x :: y :: l'
  end.

Definition orderByTS (order : Order) (l : list DocumentRow)
    : list DocumentRow :=
  foldr (insertByTS order) [] l.

Definition DocumentsByTableQuery (db : Database) (table_id : string)
    (ts_from ts_to : Z) (order : Order) : list DocumentRow :=
  orderByTS order
    (filter (λ r, row_table_id r = table_id ∧ row_ts r >= ts_from
                  ∧ row_ts r <= ts_to)
       (documents db)).

Definition LoadDocuments (db : Database) (tableID : string)
    (tsRange : TimestampRange) (order : Order) : list DocumentLogEntry :=
  scanDocument
    <$> DocumentsByTableQuery db tableID (RangeStart tsRange)
          (RangeEnd tsRange) order.

(** [SELECT COALESCE(MAX(ts), 0) FROM documents] *)
Definition MaxTimestampQuery (db : Database) : Z :=
  default 0
    (foldr (λ r acc, Some (match acc with
                           | Some m => Z.max (row_ts r) m
                           | None => row_ts r
                           end))
       None (documents db)).

(** The reader's [MaxTimestamp] method (the name [MaxTimestamp] is the
    constant of types.go). *)
Definition ReaderMaxTimestamp (db : Database) : Timestamp :=
  MaxTimestampQuery db.

(** [SELECT COUNT(DISTINCT id) FROM documents WHERE table_id = ? AND
    deleted = 0] *)
Definition DocumentCountQuery (db : Database) (table_id : string) : Z :=
  Z.of_nat (length (remove_dups
    (row_id <$> filter (λ r, row_table_id r = table_id ∧ row_deleted r = 0)
                  (documents db)))).

Definition DocumentCount (db : Database) (tableID : string) : Z :=
  DocumentCountQuery db tableID.

(** ** The index generator (indexes.go) *)

(** Modelled from the spec: the declaration of [types.Issue] is not among
    the sources; the record has the fields [IndexIssue] reads, with the
    types its uses fix ([Status] and [IssueType] are string types, [Labels]
    a slice whose nil and empty forms the code treats alike). *)
Record Issue : Type := mkIssue {
  issueID : string;
  issueStatus : string;
  issuePriority : Z;
  issueIssueType : string;
  issueParent : string;
  issueAssignee : string;
  issueLabels : list string
}.

(** The one-character string ["\x00"]. *)
Definition nulString : string := String Ascii.zero EmptyString.

Definition StatusIndexKey (status : string) : list byte :=
  bytesOf (status +:+ nulString).

Definition TypeIndexKey (issueType : string) : list byte :=
  bytesOf (issueType +:+ nulString).

Definition ParentIndexKey (parent : string) : list byte :=
  bytesOf (parent +:+ nulString).

Definition AssigneeIndexKey (assignee : string) : list byte :=
  bytesOf (assignee +:+ nulString).

Definition LabelIndexKey (label : string) : list byte :=
  bytesOf (label +:+ nulString).

Definition issueIndexEntry (indexID : string) (ts : Timestamp)
    (key : list byte) (issue : Issue) : IndexEntry :=
  {| idxIndexID := indexID; idxTS := ts; idxKey := Some key;
     idxDeleted := false; idxTableID := "issues";
     idxDocumentID := issueID issue |}.

Definition IndexIssue (issue : Issue) (ts : Timestamp) : list IndexEntry :=
  let indexes := [] in
  let indexes :=
    if decide (issueStatus issue ≠ "")
    then indexes ++ [issueIndexEntry "issues_by_status" ts
                       (StatusIndexKey (issueStatus issue)) issue]
    else indexes in
  let indexes :=
    indexes ++ [issueIndexEntry "issues_by_priority" ts
                  (PriorityIndexKey (issuePriority issue)) issue] in
  let indexes :=
    if decide (issueIssueType issue ≠ "")
    then indexes ++ [issueIndexEntry "issues_by_type" ts
                       (TypeIndexKey (issueIssueType issue)) issue]
    else indexes in
  let indexes :=
    if decide (issueParent issue ≠ "")
    then indexes ++ [issueIndexEntry "issues_by_parent" ts
                       (ParentIndexKey (issueParent issue)) issue]
    else indexes in
  let indexes :=
    if decide (issueAssignee issue ≠ "")
    then indexes ++ [issueIndexEntry "issues_by_assignee" ts
                       (AssigneeIndexKey (issueAssignee issue)) issue]
    else indexes in
  foldl (λ indexes label,
           indexes ++ [issueIndexEntry "issues_by_label" ts
                         (LabelIndexKey label) issue])
    indexes (issueLabels issue).

(** ** Write batches and the adapter's writes (persistence.go, adapter.go) *)

Record WriteBatch : Type := mkWriteBatch {
  batchDocuments : list DocumentLogEntry;
  batchIndexes : list IndexEntry
}.

Definition emptyBatch : WriteBatch :=
  {| batchDocuments := []; batchIndexes := [] |}.

Definition AddDocument (b : WriteBatch) (doc : DocumentLogEntry) : WriteBatch :=
  {| batchDocuments := batchDocuments b ++ [doc];
     batchIndexes := batchIndexes b |}.

Definition AddIndex (b : WriteBatch) (idx : IndexEntry) : WriteBatch :=
  {| batchDocuments := batchDocuments b;
     batchIndexes := batchIndexes b ++ [idx] |}.

Definition Clear (b : WriteBatch) : WriteBatch :=
  {| batchDocuments := take 0 (batchDocuments b);
     batchIndexes := take 0 (batchIndexes b) |}.

Definition Len (b : WriteBatch) : Z :=
  Z.of_nat (length (batchDocuments b)) + Z.of_nat (length (batchIndexes b)).

Inductive AdapterError : Type :=
  | ErrSerializingIssue (id : string)
  | ErrPersistence (err : WriteError).

Definition liftWrite (r : option WriteError * Database)
    : option AdapterError * Database :=
  (ErrPersistence <$> r.1, r.2).

(** [CreateIssue].  [jsonMarshal] stands for [json.Marshal] on issues
    ([None] is an error) and [clock] for the value [a.clock()] returns. *)
Definition CreateIssue (jsonMarshal : Issue → option string)
    (clock : Timestamp) (db : Database) (issue : Issue)
    : option AdapterError * Database :=
  match jsonMarshal issue with
  | None => (Some (ErrSerializingIssue (issueID issue)), db)
  | Some jsonValue =>
      let ts := clock in
      let doc := {| docTS := ts; docID := issueID issue;
                    docTableID := "issues"; docValue := Some jsonValue;
                    docDeleted := false; docPrevTS := None |} in
      let indexes := IndexIssue issue ts in
      liftWrite (Write db [doc] indexes)
  end.

(** The loop of [CreateIssues] over the batch; an error of [json.Marshal]
    returns at once. *)
Fixpoint createIssuesBatch (jsonMarshal : Issue → option string)
    (ts : Timestamp) (batch : WriteBatch) (issues : list Issue)
    : AdapterError + WriteBatch :=
  match issues with
  | [] => inr batch
  | issue :: rest =>
      match jsonMarshal issue with
      | None => inl (ErrSerializingIssue (issueID issue))
      | Some jsonValue =>
          let doc := {| docTS := ts; docID := issueID issue;
                        docTableID := "issues"; docValue := Some jsonValue;
                        docDeleted := false; docPrevTS := None |} in
          let batch := AddDocument batch doc in
          let batch := foldl AddIndex batch (IndexIssue issue ts) in
          createIssuesBatch jsonMarshal ts batch rest
      end
  end.

Definition CreateIssues (jsonMarshal : Issue → option string)
    (clock : Timestamp) (db : Database) (issues : list Issue)
    : option AdapterError * Database :=
  if decide (length issues = 0%nat) then (None, db)
  else
    match createIssuesBatch jsonMarshal clock emptyBatch issues with
    | inl err => (Some err, db)
    | inr batch =>
        liftWrite (Write db (batchDocuments batch) (batchIndexes batch))
    end.

Definition DeleteIssue (clock : Timestamp) (db : Database) (id : string)
    : option AdapterError * Database :=
  let ts := clock in
  let doc := {| docTS := ts; docID := id; docTableID := "issues";
                docValue := None; docDeleted := true; docPrevTS := None |} in
  liftWrite (Write db [doc] []).

(** [generateCommentID]: [fmt.Sprintf("%s-%d", issueID, int64(ts))]. *)
Definition generateCommentID (issueID : string) (ts : Timestamp) : string :=
  issueID +:+ "-" +:+ pretty ts.

(** ** Primary keys as values *)

Definition rowKey (r : DocumentRow) : Z * string * string :=
  (row_ts r, row_table_id r, row_id r).

Definition docKey (d : DocumentLogEntry) : Z * string * string :=
  (docTS d, docTableID d, docID d).

Definition irowKey (r : IndexRow) : string * option (list byte) * Z :=
  (irow_index_id r, Some (irow_key r), irow_ts r).

Definition idxPrimaryKey (i : IndexEntry) : string * option (list byte) * Z :=
  (idxIndexID i, idxKey i, idxTS i).

(** The PRIMARY KEY constraints of [Schema], as a property of a store. *)
Definition uniqueKeys (db : Database) : Prop :=
  NoDup (rowKey <$> documents db) ∧ NoDup (irowKey <$> indexes db).

(** The row [InsertIndexQuery] stores for an entry with a non-nil key. *)
Definition indexRow (i : IndexEntry) (k : list byte) : IndexRow :=
  {| irow_index_id := idxIndexID i; irow_ts := idxTS i; irow_key := k;
     irow_deleted := if idxDeleted i then 1 else 0;
     irow_table_id := idxTableID i; irow_document_id := idxDocumentID i |}.

(** The order on timestamps an [Order] asks for. *)
Definition tsInOrder (order : Order) (a b : Z) : Prop :=
  match order with
  | Asc => a <= b
  | Desc => b <= a
  end.

(** The order on keys an [Order] asks for: [a] may come before [b] when
    [b] is not strictly before [a]. *)
Definition keyInOrder (order : Order) (a b : list byte) : Prop :=
  keyBefore order b a = false.

(** * Properties *)

(** ** Timestamps *)

Lemma Contains_inclusive (r : TimestampRange) (ts : Timestamp) :
  Contains r ts = true <-> RangeStart r <= ts <= RangeEnd r.
Proof.
  unfold Contains. rewrite andb_true_iff, Z.geb_le, Z.leb_le. tauto.
Qed.

Lemma wrapInt64_id (z : Z) : isInt64 z -> wrapInt64 z = z.
Proof.
  unfold isInt64, wrapInt64. intros Hz.
  rewrite Z.mod_small by lia. lia.
Qed.

Lemma After_excludes_below_max (t : Timestamp) :
  isInt64 t -> t <> MaxTimestamp -> Contains (After t) t = false.
Proof.
  unfold isInt64, MaxTimestamp. intros Ht Hne.
  apply not_true_iff_false. rewrite Contains_inclusive. simpl.
  rewrite wrapInt64_id by (unfold isInt64; lia). lia.
Qed.

(** C8. [Contains] is inclusive on both ends, and [After t] leaves [t] out
    for every [int64] below [MaxTimestamp]; at [t = MaxTimestamp] the
    [ts + 1] of [After] wraps to the least [int64], and the range returned
    is the whole line, which contains [t]. *)
Theorem After_MaxTimestamp_contains_it :
  isInt64 MaxTimestamp
  /\ RangeStart (After MaxTimestamp) = - 2 ^ 63
  /\ Contains (After MaxTimestamp) MaxTimestamp = true.
Proof.
  split; [unfold isInt64, MaxTimestamp; lia|].
  split; reflexivity.
Qed.

(** ** Bytes *)

Lemma byteVal_range (b : byte) : 0 <= byteVal b <= 255.
Proof.
  unfold byteVal. pose proof (Byte.to_N_bounded b). lia.
Qed.

Lemma byteVal_inj (a b : byte) : byteVal a = byteVal b -> a = b.
Proof.
  unfold byteVal. intros H. apply N2Z.inj in H.
  pose proof (Byte.of_to_N a) as Ha. rewrite H, Byte.of_to_N in Ha.
  congruence.
Qed.

Lemma byteVal_byteOf (z : Z) : byteVal (byteOf z) = z `mod` 256.
Proof.
  unfold byteVal, byteOf.
  pose proof (Z.mod_pos_bound z 256 ltac:(lia)) as Hm.
  destruct (Byte.of_N (Z.to_N (z `mod` 256))) as [b|] eqn:E.
  - apply Byte.to_of_N in E. simpl. rewrite E. lia.
  - apply Byte.of_N_None_iff in E. lia.
Qed.

(** ** C10: the priority key *)

Lemma PriorityIndexKey_value (p : Z) :
  exists hi lo,
    PriorityIndexKey p = [hi; lo; Byte.x00]
    /\ byteVal hi * 256 + byteVal lo = p `mod` 2 ^ 16.
Proof.
  eexists _, _. split; [reflexivity|].
  rewrite !byteVal_byteOf, Z.shiftr_div_pow2 by lia.
  pose proof (Z.mod_pos_bound p (2 ^ 16) ltac:(lia)) as Hm.
  set (v := p `mod` 2 ^ 16) in *.
  change (2 ^ 8) with 256.
  rewrite (Z.mod_small (v `div` 256)).
  - pose proof (Z.div_mod v 256 ltac:(lia)). lia.
  - split; [apply Z.div_pos; lia|].
    apply Z.div_lt_upper_bound; lia.
Qed.

(** C10. [PriorityIndexKey] is the big-endian encoding of
    [priority mod 2^16] followed by [0x00]: two priorities get the same
    3-byte key exactly when they agree modulo [2^16] (so [0] and [65536],
    and [-1] and [65535], collide), and the encoding is injective on
    [0 .. 65535]. *)
Theorem PriorityIndexKey_low_16_bits (p q : Z) :
  (exists hi lo,
      PriorityIndexKey p = [hi; lo; Byte.x00]
      /\ byteVal hi * 256 + byteVal lo = p `mod` 2 ^ 16)
  /\ (PriorityIndexKey p = PriorityIndexKey q
      <-> p `mod` 2 ^ 16 = q `mod` 2 ^ 16)
  /\ (0 <= p < 2 ^ 16 -> 0 <= q < 2 ^ 16 ->
      PriorityIndexKey p = PriorityIndexKey q -> p = q)
  /\ PriorityIndexKey 0 = PriorityIndexKey 65536
  /\ PriorityIndexKey (-1) = PriorityIndexKey 65535.
Proof.
  assert (Hiff : forall a b, PriorityIndexKey a = PriorityIndexKey b
                        <-> a `mod` 2 ^ 16 = b `mod` 2 ^ 16).
  { intros a b. split.
    - intros Heq.
      destruct (PriorityIndexKey_value a) as (ha & la & Ea & Va).
      destruct (PriorityIndexKey_value b) as (hb & lb & Eb & Vb).
      rewrite Ea, Eb in Heq. injection Heq as -> ->. lia.
    - intros Heq. unfold PriorityIndexKey. rewrite Heq. reflexivity. }
  split; [apply PriorityIndexKey_value|].
  split; [apply Hiff|].
  split.
  - intros Hp Hq Heq. apply Hiff in Heq.
    rewrite !Z.mod_small in Heq by lia. exact Heq.
  - split; reflexivity.
Qed.

Lemma PriorityIndexKey_low_16_bits_witness :
  PriorityIndexKey 7 = PriorityIndexKey 65543
  /\ (PriorityIndexKey 7 = PriorityIndexKey 3 -> 7 = 3).
Proof.
  split.
  - apply (proj1 (proj2 (PriorityIndexKey_low_16_bits 7 65543))).
    reflexivity.
  - apply (proj1 (proj2 (proj2 (PriorityIndexKey_low_16_bits 7 3)))); lia.
Defined.

(** ** C4: prefix intervals *)

Lemma bytesLt_nil_r (k : list byte) : bytesLt k [] = false.
Proof. destruct k; reflexivity. Qed.

Lemma bytesLt_cons (c b : byte) (k r : list byte) :
  bytesLt (c :: k) (b :: r)
  = if decide (byteVal c < byteVal b) then true
    else if decide (byteVal c = byteVal b) then bytesLt k r else false.
Proof.
  unfold bytesLt. simpl.
  destruct (Z.compare_spec (byteVal c) (byteVal b));
    repeat case_decide; try lia; reflexivity.
Qed.

Lemma prefixSucc_snoc (l : list byte) (b : byte) :
  prefixSucc (l ++ [b])
  = if byteVal b <? 255 then Some (l ++ [byteOf (byteVal b + 1)])
    else prefixSucc l.
Proof.
  induction l as [|a l IH]; simpl.
  - destruct (byteVal b <? 255); reflexivity.
  - rewrite IH. destruct (byteVal b <? 255); reflexivity.
Qed.

(** The loop computes [prefixSucc] of the part of the slice it has still
    to visit. *)
Lemma prefixLoop_take (p : list byte) (n : nat) :
  (n <= length p)%nat -> prefixLoop p n = prefixSucc (take n p).
Proof.
  induction n as [|i IH]; intros Hn.
  - rewrite take_0. reflexivity.
  - destruct (lookup_lt_is_Some_2 p i ltac:(lia)) as [b Hb].
    simpl prefixLoop. rewrite Hb, (take_S_r _ _ _ Hb), prefixSucc_snoc.
    destruct (byteVal b <? 255).
    + f_equal. erewrite take_S_r.
      * rewrite take_insert_ge by lia. reflexivity.
      * apply list_lookup_insert_eq. lia.
    + apply IH. lia.
Qed.

Lemma Prefix_unfold (p : list byte) :
  p <> [] ->
  Prefix p = {| IntervalStart := Some p; IntervalEnd := prefixSucc p |}.
Proof.
  intros Hp. unfold Prefix.
  destruct (decide (length p = 0%nat)) as [H0|_].
  - destruct p; [congruence | discriminate].
  - rewrite prefixLoop_take, firstn_all by lia.
    destruct (prefixSucc p); reflexivity.
Qed.

(** Between [p] and its successor lie exactly the extensions of [p]. *)
Lemma keyInRange_prefixSucc (p k : list byte) :
  keyInRange p (prefixSucc p) k = true <-> p `prefix_of` k.
Proof.
  revert k. induction p as [|b r IH]; intros k.
  - split; [intros _; apply prefix_nil|intros _].
    unfold keyInRange, bytesGe. simpl. rewrite bytesLt_nil_r. reflexivity.
  - destruct k as [|c k].
    + split; [discriminate|]. intros H. destruct (prefix_nil_not _ _ H).
    + specialize (IH k). unfold keyInRange, bytesGe in *.
      pose proof (byteVal_range b) as Rb. pose proof (byteVal_range c) as Rc.
      assert (Hpre : b :: r `prefix_of` c :: k <-> b = c /\ r `prefix_of` k).
      { split.
        - intros H. split; [exact (prefix_cons_inv_1 _ _ _ _ H)|].
          exact (prefix_cons_inv_2 _ _ _ _ H).
        - intros [-> H]. apply prefix_cons, H. }
      rewrite Hpre, <- IH. clear Hpre IH.
      rewrite (bytesLt_cons c b k r). simpl prefixSucc.
      destruct (prefixSucc r) as [e|].
      * rewrite (bytesLt_cons c b k e).
        repeat case_decide; simpl; split;
          try (intros [-> ?]; lia); try discriminate; try lia.
        -- intros Hk. split; [symmetry; apply byteVal_inj; lia | exact Hk].
        -- intros [_ Hk]. exact Hk.
      * destruct (Z.ltb_spec (byteVal b) 255) as [Hlt|Hge].
        -- rewrite (bytesLt_cons c _ k []), byteVal_byteOf, bytesLt_nil_r.
           rewrite Z.mod_small by lia.
           repeat case_decide; simpl; split;
             try (intros [-> ?]; lia); try discriminate; try lia.
           ++ intros Hk. split; [symmetry; apply byteVal_inj; lia | exact Hk].
           ++ intros [_ Hk]. exact Hk.
        -- repeat case_decide; simpl; split;
             try (intros [-> ?]; lia); try discriminate; try lia.
           ++ intros Hk. split; [symmetry; apply byteVal_inj; lia | exact Hk].
           ++ intros [_ Hk]. exact Hk.
Qed.

Lemma prefixSucc_all_ff (p : list byte) :
  Forall (λ b, b = Byte.xff) p -> prefixSucc p = None.
Proof.
  induction 1 as [|b r -> _ IH]; [reflexivity|].
  simpl. rewrite IH. reflexivity.
Qed.

Lemma prefixSucc_scan (q r : list byte) (b : byte) :
  b <> Byte.xff -> Forall (λ c, c = Byte.xff) r ->
  prefixSucc (q ++ b :: r) = Some (q ++ [byteOf (byteVal b + 1)]).
Proof.
  intros Hb Hr. induction q as [|a q IH]; simpl.
  - rewrite (prefixSucc_all_ff r Hr).
    destruct (Z.ltb_spec (byteVal b) 255) as [_|Hge]; [reflexivity|].
    destruct Hb. apply byteVal_inj.
    pose proof (byteVal_range b). change (byteVal Byte.xff) with 255. lia.
  - rewrite IH. reflexivity.
Qed.

(** C4. For a non-empty [p], [Prefix p] is the half-open interval from [p]
    whose members are exactly the byte strings with prefix [p]; its end is
    found from the right: with [b] the last byte below [0xFF], the end is
    [p] cut after [b], with [b] incremented, and when every byte is [0xFF]
    there is no end.  The empty prefix gives [All], the interval of all
    keys. *)
Theorem Prefix_spec (p : list byte) :
  (p = [] -> Prefix p = All /\ forall k, keyInInterval All k = true)
  /\ (p <> [] ->
      IntervalStart (Prefix p) = Some p
      /\ (forall k, keyInInterval (Prefix p) k = true <-> p `prefix_of` k)
      /\ (forall q b r, p = q ++ b :: r -> b <> Byte.xff ->
            Forall (λ c, c = Byte.xff) r ->
            IntervalEnd (Prefix p) = Some (q ++ [byteOf (byteVal b + 1)])
            /\ byteVal (byteOf (byteVal b + 1)) = byteVal b + 1)
      /\ (Forall (λ c, c = Byte.xff) p -> IntervalEnd (Prefix p) = None)).
Proof.
  split.
  - intros ->. split; [reflexivity|]. intros k.
    unfold keyInInterval, keyInRange, bytesGe. simpl.
    rewrite bytesLt_nil_r. reflexivity.
  - intros Hp. rewrite (Prefix_unfold p Hp). simpl.
    split; [reflexivity|]. split; [|split].
    + intros k. unfold keyInInterval. simpl. apply keyInRange_prefixSucc.
    + intros q b r -> Hb Hr. split; [apply prefixSucc_scan; assumption|].
      rewrite byteVal_byteOf. apply Z.mod_small.
      pose proof (byteVal_range b).
      assert (byteVal b <> 255); [|lia].
      intros E. apply Hb, byteVal_inj. exact E.
    + apply prefixSucc_all_ff.
Qed.

Lemma Prefix_spec_witness :
  IntervalEnd (Prefix [Byte.x61; Byte.xff]) = Some [Byte.x62]
  /\ keyInInterval (Prefix [Byte.x61; Byte.xff])
       [Byte.x61; Byte.xff; Byte.x00] = true.
Proof.
  destruct (Prefix_spec [Byte.x61; Byte.xff]) as [_ H].
  destruct (H ltac:(discriminate)) as (_ & Hmem & Hscan & _).
  split.
  - apply (Hscan [] Byte.x61 [Byte.xff]);
      [reflexivity | discriminate | repeat constructor].
  - apply Hmem. exists [Byte.x00]. reflexivity.
Defined.

(** ** C3: opening a store *)

(** A store stamped ["2"] while the implementation expects ["1"]: the
    open returns a handle on the store, unchanged. *)
Lemma open_mismatched_store_succeeds :
  GetGlobal storeAtVersion2 GlobalSchemaVersion = Some "2"
  /\ pretty SchemaVersion = "1"
  /\ NewSQLitePersistence hostWithVersion2 "beads.db"
     = ({| dbPath := "beads.db"; fresh := false |}, hostWithVersion2).
Proof. vm_compute. repeat split; reflexivity. Qed.

(** C3, as the code has it.  Opening a path whose file exists reads
    nothing and writes nothing: whatever [schema_version] the store holds,
    the handle is returned with [fresh = false] and the host's files are
    as before.  Only a path with no file gets a store: empty tables and
    [schema_version] stamped with [SchemaVersion]. *)
Theorem NewSQLitePersistence_reads_no_version (fs : FileSystem)
    (path : string) :
  (forall db, fs !! path = Some db ->
     NewSQLitePersistence fs path
     = ({| dbPath := path; fresh := false |}, fs))
  /\ (fs !! path = None ->
      exists db,
        NewSQLitePersistence fs path
        = ({| dbPath := path; fresh := true |}, <[path := db]> fs)
        /\ documents db = [] /\ indexes db = []
        /\ GetGlobal db GlobalSchemaVersion = Some (pretty SchemaVersion)).
Proof.
  unfold NewSQLitePersistence. split.
  - intros db ->. reflexivity.
  - intros ->. eexists. split; [reflexivity|].
    split; [reflexivity|]. split; [reflexivity|].
    unfold GetGlobal, execSetGlobal. simpl. apply lookup_insert_eq.
Qed.

Lemma NewSQLitePersistence_reads_no_version_witness :
  NewSQLitePersistence hostWithVersion2 "beads.db"
  = ({| dbPath := "beads.db"; fresh := false |}, hostWithVersion2).
Proof.
  apply (proj1 (NewSQLitePersistence_reads_no_version
                  hostWithVersion2 "beads.db") storeAtVersion2).
  vm_compute. reflexivity.
Defined.

(** ** C9: the empty batch *)

(** C9. [Write] with no documents and no index entries returns no error
    and leaves the store as it was, so every read answers as before. *)
Theorem Write_empty_batch (db : Database) :
  Write db [] [] = (None, db)
  /\ (forall tableID docID atTS,
        GetDocument (Write db [] []).2 tableID docID atTS
        = GetDocument db tableID docID atTS)
  /\ (forall now indexID interval readTS order limit,
        IndexScan (Write db [] []).2 now indexID interval readTS order limit
        = IndexScan db now indexID interval readTS order limit)
  /\ (forall now indexID key readTS,
        IndexGet (Write db [] []).2 now indexID key readTS
        = IndexGet db now indexID key readTS)
  /\ (forall key, GetGlobal (Write db [] []).2 key = GetGlobal db key).
Proof.
  assert (H : Write db [] [] = (None, db)) by reflexivity.
  rewrite H. simpl. repeat split.
Qed.

(** ** C1: [GetDocument] without a timestamp *)

(** C1.  On the store where issue [bd-1] was created at 100 and tombstoned
    at 200, the latest row is the tombstone and a read as of 200 (or
    later) reports the issue as not found, yet [GetDocument] with a nil
    [atTS] returns the version of 100: [LatestDocumentQuery] filters
    [deleted = 0] before taking the latest row. *)
Theorem GetDocument_nil_atTS_returns_deleted_issue :
  LatestDocumentAtTSQuery deletedIssueStore "issues" "bd-1" MaxTimestamp
  = Some (documentRow issueTombstone)
  /\ GetDocument deletedIssueStore "issues" "bd-1" (Some 200) = None
  /\ GetDocument deletedIssueStore "issues" "bd-1" (Some MaxTimestamp) = None
  /\ GetDocument deletedIssueStore "issues" "bd-1" None = Some issueOpen.
Proof. vm_compute. repeat split; reflexivity. Qed.

(** ** C2: index reads of a deleted document *)

(** C2.  On the same store, as of 250 the latest version of [bd-1] is the
    tombstone, yet the index scan and the index point read through the
    key ["open\x00"] both return the version of 100: the sub-select of
    [IndexScanQuery] and [IndexGetQuery] takes [MAX(ts)] over the rows
    with [deleted = 0] only. *)
Theorem IndexScan_returns_tombstoned_issue :
  LatestDocumentAtTSQuery deletedIssueStore "issues" "bd-1" 250
  = Some (documentRow issueTombstone)
  /\ GetDocument deletedIssueStore "issues" "bd-1" (Some 250) = None
  /\ IndexScan deletedIssueStore 1000 "issues_by_status" (Prefix openKey)
       250 Asc 10
     = [{| resKey := None; resDocument := Some issueOpen |}]
  /\ IndexGet deletedIssueStore 1000 "issues_by_status" (Some openKey) 250
     = Some issueOpen.
Proof. vm_compute. repeat split; reflexivity. Qed.

(** ** C6: what an index scan result carries *)

Lemma IndexScan_resKey_nil (db : Database) (now : Timestamp)
    (indexID : string) (interval : Interval) (readTS : Timestamp)
    (order : Order) (limit : Z) :
  Forall (λ r, resKey r = None)
    (IndexScan db now indexID interval readTS order limit).
Proof.
  unfold IndexScan. apply Forall_fmap, Forall_forall. reflexivity.
Qed.

Lemma IndexScan_at_most_limit (db : Database) (now : Timestamp)
    (indexID : string) (interval : Interval) (readTS : Timestamp)
    (order : Order) (limit : Z) :
  0 <= limit ->
  (length (IndexScan db now indexID interval readTS order limit)
   <= Z.to_nat limit)%nat.
Proof.
  intros Hl. unfold IndexScan, IndexScanQuery, indexScanRows, limitRows.
  rewrite !length_fmap. case_decide; [lia|].
  rewrite length_take. lia.
Qed.

(** C6.  On the store holding the live issue [bd-1] indexed under
    ["open\x00"], the scan of that key returns the document, and the
    result's [Key] is nil, not the key that matched: [IndexScan] builds
    [IndexResult{Document: &doc}] and the query does not select [i.key]. *)
Theorem IndexScan_result_has_nil_key :
  indexScanRows createdIssueStore "issues_by_status" openKey None 150 Asc 10
  = [({| irow_index_id := "issues_by_status"; irow_ts := 100;
         irow_key := openKey; irow_deleted := 0;
         irow_table_id := "issues"; irow_document_id := "bd-1" |},
      documentRow issueOpen)]
  /\ IndexScan createdIssueStore 1000 "issues_by_status"
       {| IntervalStart := Some openKey; IntervalEnd := None |} 150 Asc 10
     = [{| resKey := None; resDocument := Some issueOpen |}].
Proof. vm_compute. repeat split; reflexivity. Qed.

(** ** The writer's transaction *)

Lemma execInsertDocument_inr (tx tx' : Database) (r : DocumentRow) :
  execInsertDocument tx r = inr tx' ->
  ~ Exists (sameDocumentKey r) (documents tx)
  /\ documents tx' = documents tx ++ [r]
  /\ indexes tx' = indexes tx
  /\ persistence_globals tx' = persistence_globals tx.
Proof.
  unfold execInsertDocument. case_decide; [discriminate|].
  intros [= <-]. auto.
Qed.

Lemma execInsertIndex_inr (tx tx' : Database) (index_id : string) (ts : Z)
    (key : option (list byte)) (deleted : Z) (table_id document_id : string) :
  execInsertIndex tx index_id ts key deleted table_id document_id = inr tx' ->
  exists k,
    key = Some k
    /\ documents tx' = documents tx
    /\ indexes tx'
       = indexes tx ++ [mkIndexRow index_id ts k deleted table_id document_id]
    /\ persistence_globals tx' = persistence_globals tx.
Proof.
  unfold execInsertIndex. destruct key as [k|]; [|discriminate].
  case_decide; [discriminate|]. intros [= <-]. eauto.
Qed.

(** A successful run of the document loop appends the batch's rows, in
    order, and each of them is the only row of the table with its key. *)
Lemma insertDocuments_inr (docs : list DocumentLogEntry) :
  forall tx tx', insertDocuments tx docs = inr tx' ->
    documents tx' = documents tx ++ (documentRow <$> docs)
    /\ indexes tx' = indexes tx
    /\ persistence_globals tx' = persistence_globals tx
    /\ (forall d r, d ∈ docs -> r ∈ documents tx' ->
          sameDocumentKey (documentRow d) r -> r = documentRow d).
Proof.
  induction docs as [|d0 rest IH]; intros tx tx' Hrun; simpl in Hrun.
  - injection Hrun as <-. rewrite app_nil_r.
    repeat split. intros d r Hd. inversion Hd.
  - destruct (execInsertDocument tx (documentRow d0)) as [e|tx1] eqn:E;
      [discriminate|].
    apply execInsertDocument_inr in E as (Hnew & Hd1 & Hi1 & Hg1).
    destruct (IH _ _ Hrun) as (Hd & Hi & Hg & Huniq).
    rewrite Hd1 in Hd. rewrite <- app_assoc in Hd. simpl in Hd.
    split; [exact Hd|]. split; [congruence|]. split; [congruence|].
    intros d r Hin Hr Hkey. apply elem_of_cons in Hin as [->|Hin];
      [|eauto].
    rewrite Hd in Hr. apply elem_of_app in Hr as [Hr|Hr].
    + destruct Hnew. apply Exists_exists. eauto.
    + apply elem_of_cons in Hr as [->|Hr]; [reflexivity|].
      apply list_elem_of_fmap in Hr as (d' & -> & Hd').
      symmetry. apply (Huniq d'); [exact Hd'| |].
      * rewrite Hd. apply elem_of_app. right. apply elem_of_cons. auto.
      * destruct Hkey as (? & ? & ?). repeat split; congruence.
Qed.

Lemma insertIndexes_inr (idxs : list IndexEntry) :
  forall tx tx', insertIndexes tx idxs = inr tx' ->
    documents tx' = documents tx
    /\ persistence_globals tx' = persistence_globals tx.
Proof.
  induction idxs as [|i rest IH]; intros tx tx' Hrun; simpl in Hrun.
  - injection Hrun as <-. auto.
  - destruct (execInsertIndex tx _ _ _ _ _ _) as [e|tx1] eqn:E;
      [discriminate|].
    apply execInsertIndex_inr in E as (k & _ & Hd1 & _ & Hg1).
    destruct (IH _ _ Hrun) as [Hd Hg]. split; congruence.
Qed.

(** The document loop stops at a row whose key is already in the table. *)
Lemma insertDocuments_duplicate (docs : list DocumentLogEntry) :
  forall tx d r, d ∈ docs -> r ∈ documents tx ->
    sameDocumentKey (documentRow d) r ->
    exists id cause, insertDocuments tx docs = inl (ErrInsertingDocument id cause).
Proof.
  induction docs as [|d0 rest IH]; intros tx d r Hd Hr Hkey.
  - inversion Hd.
  - simpl.
    destruct (execInsertDocument tx (documentRow d0)) as [e|tx1] eqn:E;
      [eauto|].
    apply execInsertDocument_inr in E as (Hnew & Hd1 & _).
    apply elem_of_cons in Hd as [->|Hd].
    + destruct Hnew. apply Exists_exists. eauto.
    + apply (IH tx1 d r Hd); [|exact Hkey].
      rewrite Hd1. apply elem_of_app. auto.
Qed.

Lemma insertIndexes_duplicate (idxs : list IndexEntry) :
  forall tx i r, i ∈ idxs -> r ∈ indexes tx ->
    irow_index_id r = idxIndexID i -> Some (irow_key r) = idxKey i ->
    irow_ts r = idxTS i ->
    exists cause, insertIndexes tx idxs = inl (ErrInsertingIndexEntry cause).
Proof.
  induction idxs as [|i0 rest IH]; intros tx i r Hi Hr Hid Hk Hts.
  - inversion Hi.
  - simpl.
    destruct (execInsertIndex tx _ _ _ _ _ _) as [e|tx1] eqn:E; [eauto|].
    apply elem_of_cons in Hi as [->|Hi].
    + unfold execInsertIndex in E. rewrite <- Hk in E.
      case_decide as Hex; [discriminate|].
      destruct Hex. apply Exists_exists. exists r.
      split; [exact Hr|]. repeat split; simpl; congruence.
    + apply execInsertIndex_inr in E as (k & _ & _ & Hi1 & _).
      apply (IH tx1 i r Hi); try assumption.
      rewrite Hi1. apply elem_of_app. auto.
Qed.

Lemma insertDocuments_inl (docs : list DocumentLogEntry) :
  forall tx err, insertDocuments tx docs = inl err ->
    exists id, err = ErrInsertingDocument id ConstraintPrimaryKey.
Proof.
  induction docs as [|d0 rest IH]; intros tx err Hrun; simpl in Hrun.
  - discriminate.
  - destruct (execInsertDocument tx (documentRow d0)) as [e|tx1] eqn:E.
    + unfold execInsertDocument in E. case_decide; [|discriminate].
      injection E as <-. injection Hrun as <-. eauto.
    + eauto.
Qed.

Lemma insertIndexes_inl (idxs : list IndexEntry) :
  forall tx err, insertIndexes tx idxs = inl err ->
    exists cause, err = ErrInsertingIndexEntry cause.
Proof.
  induction idxs as [|i0 rest IH]; intros tx err Hrun; simpl in Hrun.
  - discriminate.
  - destruct (execInsertIndex tx _ _ _ _ _ _) as [e|tx1] eqn:E.
    + injection Hrun as <-. eauto.
    + eauto.
Qed.

(** ** C5: a batch with a duplicate key *)

(** C5.  When a document of the batch has the [(ts, table_id, id)] of a
    persisted row, or an index entry of the batch the [(index_id, key, ts)]
    of a persisted index row, [Write] returns an error wrapping a
    constraint violation of the engine, and the persisted state is the
    state before the call: no row of the batch, valid or not, is there for
    any later read. *)
Theorem Write_duplicate_key_rolls_back (db : Database)
    (docs : list DocumentLogEntry) (idxs : list IndexEntry) :
  (exists d r, d ∈ docs /\ r ∈ documents db
               /\ sameDocumentKey (documentRow d) r)
  \/ (exists i r, i ∈ idxs /\ r ∈ indexes db
                  /\ irow_index_id r = idxIndexID i
                  /\ Some (irow_key r) = idxKey i
                  /\ irow_ts r = idxTS i) ->
  exists err,
    Write db docs idxs = (Some err, db)
    /\ ((exists id, err = ErrInsertingDocument id ConstraintPrimaryKey)
        \/ (exists cause : SqlError, err = ErrInsertingIndexEntry cause))
    /\ (forall tableID docID atTS,
          GetDocument (Write db docs idxs).2 tableID docID atTS
          = GetDocument db tableID docID atTS)
    /\ (forall now indexID interval readTS order limit,
          IndexScan (Write db docs idxs).2 now indexID interval readTS
            order limit
          = IndexScan db now indexID interval readTS order limit).
Proof.
  intros Hdup.
  assert (Hfail : exists err, writeTx db docs idxs = inl err
            /\ ((exists id, err = ErrInsertingDocument id ConstraintPrimaryKey)
                \/ (exists cause, err = ErrInsertingIndexEntry cause))).
  { unfold writeTx.
    destruct (insertDocuments db docs) as [e|tx] eqn:Edocs.
    - exists e. split; [reflexivity|]. left.
      exact (insertDocuments_inl _ _ _ Edocs).
    - destruct Hdup
        as [(d & r & Hd & Hr & Hkey)|(i & r & Hi & Hr & Hid & Hk & Hts)].
      + destruct (insertDocuments_duplicate docs db d r Hd Hr Hkey)
          as (id & cause & Hinl).
        congruence.
      + apply insertDocuments_inr in Edocs as (_ & Hidx & _).
        case_decide as Hlen.
        * rewrite <- Hidx in Hr.
          destruct (insertIndexes_duplicate idxs tx i r Hi Hr Hid Hk Hts)
            as (cause & ->).
          eexists. split; [reflexivity|]. right. eauto.
        * destruct idxs; [inversion Hi | simpl in Hlen; lia]. }
  destruct Hfail as (err & Herr & Hkind).
  unfold Write. rewrite Herr. simpl. exists err. auto.
Qed.

Lemma Write_duplicate_key_rolls_back_witness :
  exists err,
    Write createdIssueStore
      [issueTombstone; issueOpen] [] = (Some err, createdIssueStore).
Proof.
  destruct (Write_duplicate_key_rolls_back createdIssueStore
              [issueTombstone; issueOpen] []) as (err & Herr & _).
  - left. exists issueOpen, (documentRow issueOpen).
    split; [apply elem_of_cons; right; apply elem_of_cons; left; reflexivity|].
    split; [vm_compute; apply elem_of_cons; left; reflexivity|].
    repeat split.
  - exists err. exact Herr.
Defined.

(** ** Reading back what was written *)

Lemma scanDocument_documentRow (d : DocumentLogEntry) :
  scanDocument (documentRow d) = d.
Proof.
  destruct d as [ts id tbl v del prev].
  unfold scanDocument, documentRow. simpl.
  destruct del; reflexivity.
Qed.

Lemma latestRow_elem_of (rows : list DocumentRow) (r : DocumentRow) :
  latestRow rows = Some r -> r ∈ rows.
Proof.
  revert r. induction rows as [|a rest IH]; intros r; simpl; [discriminate|].
  destruct (latestRow rest) as [best|].
  - case_decide; intros [= <-].
    + apply elem_of_cons. auto.
    + apply elem_of_cons. right. apply IH. reflexivity.
  - intros [= <-]. apply elem_of_cons. auto.
Qed.

(** A row above all the others is the one [ORDER BY ts DESC LIMIT 1]
    returns. *)
Lemma latestRow_unique (rows : list DocumentRow) (r : DocumentRow) :
  r ∈ rows ->
  (forall r', r' ∈ rows -> r' = r \/ row_ts r' < row_ts r) ->
  latestRow rows = Some r.
Proof.
  induction rows as [|a rest IH]; intros Hin Hmax; [inversion Hin|].
  simpl.
  destruct (Hmax a ltac:(apply elem_of_cons; auto)) as [->|Hlt].
  - destruct (latestRow rest) as [best|] eqn:E; [|reflexivity].
    apply latestRow_elem_of in E.
    destruct (Hmax best ltac:(apply elem_of_cons; auto)) as [->|Hb];
      case_decide; try reflexivity; lia.
  - apply elem_of_cons in Hin as [->|Hin]; [lia|].
    rewrite IH; [|exact Hin|].
    + case_decide; [lia | reflexivity].
    + intros r' Hr'. apply Hmax, elem_of_cons. auto.
Qed.

Lemma Write_success (db db' : Database) (docs : list DocumentLogEntry)
    (idxs : list IndexEntry) :
  Write db docs idxs = (None, db') ->
  documents db' = documents db ++ (documentRow <$> docs)
  /\ (forall d r, d ∈ docs -> r ∈ documents db' ->
        sameDocumentKey (documentRow d) r -> r = documentRow d).
Proof.
  unfold Write, writeTx.
  destruct (insertDocuments db docs) as [e|tx] eqn:Edocs; [discriminate|].
  apply insertDocuments_inr in Edocs as (Hd & _ & _ & Huniq).
  case_decide.
  - destruct (insertIndexes tx idxs) as [e|tx'] eqn:Eidx; [discriminate|].
    intros [= <-]. apply insertIndexes_inr in Eidx as [Hd' _].
    rewrite Hd'. auto.
  - intros [= <-]. auto.
Qed.

(** The read as of [ts] when one row of the document is above every other
    row of the document visible at [ts]. *)
Lemma GetDocument_atTS_latest (db : Database) (r : DocumentRow)
    (ts : Timestamp) :
  r ∈ documents db -> row_ts r <= ts ->
  (forall r', r' ∈ documents db -> row_table_id r' = row_table_id r ->
     row_id r' = row_id r -> row_ts r' <= ts ->
     r' = r \/ row_ts r' < row_ts r) ->
  GetDocument db (row_table_id r) (row_id r) (Some ts)
  = if docDeleted (scanDocument r) then None else Some (scanDocument r).
Proof.
  intros Hin Hts Hmax. unfold GetDocument, LatestDocumentAtTSQuery.
  rewrite (latestRow_unique _ r); [reflexivity| |].
  - apply list_elem_of_filter. auto.
  - intros r' Hr'. apply list_elem_of_filter in Hr' as [(Ht & Hi & Hle) Hr'].
    auto.
Qed.

(** ** C7: round trip and tombstone *)

(** C7.  (1) After a [Write] that committed a document version [d] that is
    not a tombstone, the read of its [(table_id, id)] as of its [ts]
    returns [d].  (2) After a [Write] that committed a tombstone at [T]
    for a document whose latest version [pre] was live with [ts = P < T]
    (no other version of the document at or above [P]), the read as of
    [T] returns nothing and the read as of [T - 1] returns [pre]. *)
Theorem write_then_GetDocument :
  (forall db db' docs idxs d,
     Write db docs idxs = (None, db') -> d ∈ docs -> IsDeleted d = false ->
     GetDocument db' (docTableID d) (docID d) (Some (docTS d)) = Some d)
  /\ (forall db db' idxs tomb pre,
        Write db [tomb] idxs = (None, db') ->
        docDeleted tomb = true -> docValue tomb = None ->
        pre ∈ documents db ->
        row_table_id pre = docTableID tomb -> row_id pre = docID tomb ->
        IsDeleted (scanDocument pre) = false ->
        row_ts pre < docTS tomb ->
        (forall r, r ∈ documents db -> row_table_id r = docTableID tomb ->
           row_id r = docID tomb -> r = pre \/ row_ts r < row_ts pre) ->
        GetDocument db' (docTableID tomb) (docID tomb) (Some (docTS tomb))
        = None
        /\ GetDocument db' (docTableID tomb) (docID tomb)
             (Some (docTS tomb - 1))
           = Some (scanDocument pre)).
Proof.
  split.
  - intros db db' docs idxs d Hw Hd Hlive.
    apply Write_success in Hw as [Hdocs Huniq].
    apply orb_false_iff in Hlive as [Hdel _].
    pose proof (GetDocument_atTS_latest db' (documentRow d) (docTS d)) as G.
    rewrite scanDocument_documentRow, Hdel in G. apply G.
    + rewrite Hdocs. apply elem_of_app. right.
      apply list_elem_of_fmap_2, Hd.
    + simpl. lia.
    + intros r' Hr' Ht Hi Hle. simpl in *.
      destruct (decide (row_ts r' = docTS d)) as [Heq|Hne]; [|right; lia].
      left. apply (Huniq d r' Hd Hr'). repeat split; simpl; congruence.
  - intros db db' idxs tomb pre Hw Hdel _ Hpre Ht Hi Hlive Hlt Hmax.
    apply Write_success in Hw as [Hdocs _]. simpl in Hdocs.
    apply orb_false_iff in Hlive as [Hpdel _].
    split.
    + pose proof (GetDocument_atTS_latest db' (documentRow tomb) (docTS tomb))
        as G.
      rewrite scanDocument_documentRow, Hdel in G. apply G.
      * rewrite Hdocs. apply elem_of_app. right. apply elem_of_cons. auto.
      * simpl. lia.
      * intros r' Hr' Ht' Hi' _. simpl in *.
        rewrite Hdocs in Hr'. apply elem_of_app in Hr' as [Hr'|Hr'].
        -- right. destruct (Hmax r' Hr' Ht' Hi') as [->|?]; lia.
        -- apply elem_of_cons in Hr' as [->|Hr']; [auto | inversion Hr'].
    + pose proof (GetDocument_atTS_latest db' pre (docTS tomb - 1)) as G.
      rewrite Hpdel, Ht, Hi in G. apply G.
      * rewrite Hdocs. apply elem_of_app. auto.
      * lia.
      * intros r' Hr' Ht' Hi' Hle.
        rewrite Hdocs in Hr'. apply elem_of_app in Hr' as [Hr'|Hr'].
        -- apply (Hmax r' Hr' Ht' Hi').
        -- apply elem_of_cons in Hr' as [->|Hr']; [|inversion Hr'].
           simpl in Hle. lia.
Qed.

Lemma write_then_GetDocument_witness :
  GetDocument createdIssueStore "issues" "bd-1" (Some 100) = Some issueOpen
  /\ GetDocument deletedIssueStore "issues" "bd-1" (Some 200) = None
  /\ GetDocument deletedIssueStore "issues" "bd-1" (Some 199)
     = Some issueOpen.
Proof.
  destruct write_then_GetDocument as [Hround Htomb].
  split.
  - apply (Hround emptyDatabase createdIssueStore [issueOpen]
             [issueOpenIndex] issueOpen).
    + vm_compute. reflexivity.
    + apply elem_of_cons. left. reflexivity.
    + reflexivity.
  - apply (Htomb createdIssueStore deletedIssueStore [] issueTombstone
             (documentRow issueOpen)).
    + vm_compute. reflexivity.
    + reflexivity.
    + reflexivity.
    + vm_compute. apply elem_of_cons. left. reflexivity.
    + reflexivity.
    + reflexivity.
    + reflexivity.
    + simpl. lia.
    + intros r Hr _ _. left. vm_compute in Hr.
      apply elem_of_cons in Hr as [->|Hr]; [reflexivity | inversion Hr].
Defined.

(** ** What the index scan returns *)

Lemma insertByKey_elem_of (order : Order) (x y : IndexRow * DocumentRow)
    (l : list (IndexRow * DocumentRow)) :
  y ∈ insertByKey order x l <-> y = x \/ y ∈ l.
Proof.
  induction l as [|z l IH]; simpl.
  - rewrite list_elem_of_singleton, elem_of_nil. tauto.
  - destruct (keyBefore order _ _);
      rewrite !elem_of_cons, ?IH, ?elem_of_cons; tauto.
Qed.

Lemma orderByKey_elem_of (order : Order) (y : IndexRow * DocumentRow)
    (l : list (IndexRow * DocumentRow)) :
  y ∈ orderByKey order l <-> y ∈ l.
Proof.
  unfold orderByKey. induction l as [|x l IH]; simpl; [reflexivity|].
  rewrite insertByKey_elem_of, IH, elem_of_cons. reflexivity.
Qed.



(** * Further properties of the store *)

(** ** Timestamp ranges *)

(** For a cut [t] below [MaxTimestamp], every timestamp from 0 up to
    [MaxTimestamp] lies in exactly one of [AtOrBefore t] and [After t]. *)
Theorem AtOrBefore_After_partition (t u : Timestamp) :
  isInt64 t -> t <> MaxTimestamp -> 0 <= u <= MaxTimestamp ->
  Contains (After t) u = negb (Contains (AtOrBefore t) u).
Proof.
  unfold isInt64, MaxTimestamp. intros Ht Hne Hu.
  unfold Contains, After, AtOrBefore. simpl.
  rewrite wrapInt64_id by (unfold isInt64; lia).
  unfold MaxTimestamp.
  destruct (Z.geb_spec u (t + 1)), (Z.geb_spec u 0),
    (Z.leb_spec u (2 ^ 63 - 1)), (Z.leb_spec u t); simpl; try reflexivity; lia.
Qed.

Lemma AtOrBefore_After_partition_witness :
  Contains (After 100) 101 = negb (Contains (AtOrBefore 100) 101).
Proof.
  apply AtOrBefore_After_partition; unfold isInt64, MaxTimestamp; lia.
Defined.

(** ** [LoadDocuments] *)

Lemma insertByTS_elem_of (order : Order) (x y : DocumentRow)
    (l : list DocumentRow) :
  y ∈ insertByTS order x l <-> y = x \/ y ∈ l.
Proof.
  induction l as [|z l IH]; simpl.
  - rewrite list_elem_of_singleton, elem_of_nil. tauto.
  - destruct (tsBefore order _ _);
      rewrite !elem_of_cons, ?IH, ?elem_of_cons; tauto.
Qed.

Lemma orderByTS_elem_of (order : Order) (y : DocumentRow)
    (l : list DocumentRow) :
  y ∈ orderByTS order l <-> y ∈ l.
Proof.
  unfold orderByTS. induction l as [|x l IH]; simpl; [reflexivity|].
  rewrite insertByTS_elem_of, IH, elem_of_cons. reflexivity.
Qed.

Lemma insertByTS_sorted (order : Order) (x : DocumentRow)
    (l : list DocumentRow) :
  StronglySorted (λ a b, tsInOrder order (row_ts a) (row_ts b)) l ->
  StronglySorted (λ a b, tsInOrder order (row_ts a) (row_ts b))
    (insertByTS order x l).
Proof.
  induction l as [|y l IH]; intros Hs; simpl.
  - repeat constructor.
  - apply StronglySorted_cons in Hs as [Hy Hl].
    destruct (tsBefore order (row_ts y) (row_ts x)) eqn:E.
    + apply StronglySorted_cons. split; [|apply IH, Hl].
      apply Forall_forall. intros z Hz.
      apply insertByTS_elem_of in Hz as [->|Hz].
      * destruct order; simpl in *; lia.
      * rewrite Forall_forall in Hy. apply Hy, Hz.
    + apply StronglySorted_cons. split.
      * apply Forall_cons. split; [destruct order; simpl in *; lia|].
        rewrite Forall_forall in Hy |- *. intros z Hz.
        specialize (Hy z Hz). destruct order; simpl in *; lia.
      * apply StronglySorted_cons. auto.
Qed.

Lemma orderByTS_sorted (order : Order) (l : list DocumentRow) :
  StronglySorted (λ a b, tsInOrder order (row_ts a) (row_ts b))
    (orderByTS order l).
Proof.
  unfold orderByTS. induction l as [|x l IH]; simpl; [constructor|].
  apply insertByTS_sorted, IH.
Qed.

(** [LoadDocuments] returns exactly the versions of the table whose [ts]
    the range contains, tombstones included: an entry is returned if and
    only if it is the scan of such a row. *)
Theorem LoadDocuments_elem_of (db : Database) (tableID : string)
    (tsRange : TimestampRange) (order : Order) (d : DocumentLogEntry) :
  d ∈ LoadDocuments db tableID tsRange order
  <-> exists r, r ∈ documents db /\ row_table_id r = tableID
                /\ Contains tsRange (row_ts r) = true
                /\ d = scanDocument r.
Proof.
  unfold LoadDocuments, DocumentsByTableQuery.
  rewrite list_elem_of_fmap. split.
  - intros (r & -> & Hr). apply orderByTS_elem_of, list_elem_of_filter in Hr.
    destruct Hr as [(Ht & Hs & He) Hr]. exists r.
    rewrite Contains_inclusive. repeat split; auto; lia.
  - intros (r & Hr & Ht & Hc & ->). exists r. split; [reflexivity|].
    apply Contains_inclusive in Hc.
    apply orderByTS_elem_of, list_elem_of_filter. repeat split; auto; lia.
Qed.

(** The entries [LoadDocuments] returns are in the order asked for:
    timestamps never decrease with [Asc] and never increase with [Desc]. *)
Theorem LoadDocuments_sorted (db : Database) (tableID : string)
    (tsRange : TimestampRange) (order : Order) :
  StronglySorted (λ a b, tsInOrder order (docTS a) (docTS b))
    (LoadDocuments db tableID tsRange order).
Proof.
  unfold LoadDocuments, DocumentsByTableQuery.
  pose proof (orderByTS_sorted order (filter
    (λ r, row_table_id r = tableID ∧ row_ts r >= RangeStart tsRange
          ∧ row_ts r <= RangeEnd tsRange) (documents db))) as Hs.
  induction Hs as [|r l Hl IH Hr]; simpl; [constructor|].
  constructor; [exact IH|].
  apply Forall_fmap. exact Hr.
Qed.

(** ** [GetDocuments] *)

Lemma GetDocuments_foldl (db : Database) (tableID : string)
    (atTS : option Timestamp) (docIDs : list string) :
  forall (acc : gmap string DocumentLogEntry) (id : string),
    foldl (λ result id,
             match GetDocument db tableID id atTS with
             | Some doc => <[id := doc]> result
             | None => result
             end) acc docIDs !! id
    = match (if decide (id ∈ docIDs) then GetDocument db tableID id atTS
             else None) with
      | Some doc => Some doc
      | None => acc !! id
      end.
Proof.
  induction docIDs as [|i rest IH]; intros acc id; simpl.
  - reflexivity.
  - rewrite IH. clear IH.
    destruct (decide (id ∈ rest)) as [Hin|Hnin].
    + rewrite decide_True by (apply elem_of_cons; auto).
      destruct (GetDocument db tableID id atTS) as [d|] eqn:E;
        [reflexivity|].
      destruct (GetDocument db tableID i atTS) as [d'|] eqn:E';
        [|reflexivity].
      apply lookup_insert_ne. intros ->. congruence.
    + destruct (decide (id = i)) as [->|Hne].
      * rewrite decide_True by (apply elem_of_cons; auto).
        destruct (GetDocument db tableID i atTS) as [d|];
          [apply lookup_insert_eq | reflexivity].
      * rewrite decide_False
          by (rewrite elem_of_cons; intros [?|?]; congruence).
        destruct (GetDocument db tableID i atTS) as [d|]; [|reflexivity].
        apply lookup_insert_ne. congruence.
Qed.

(** The map [GetDocuments] returns holds, under each requested id, what
    [GetDocument] returns for it; ids that are missing or deleted, and ids
    that were not requested, are absent from the map. *)
Theorem GetDocuments_lookup (db : Database) (tableID : string)
    (docIDs : list string) (atTS : option Timestamp) (id : string) :
  GetDocuments db tableID docIDs atTS !! id
  = if decide (id ∈ docIDs) then GetDocument db tableID id atTS else None.
Proof.
  unfold GetDocuments. rewrite GetDocuments_foldl.
  destruct (decide (id ∈ docIDs)); [|apply lookup_empty].
  destruct (GetDocument db tableID id atTS); [reflexivity|apply lookup_empty].
Qed.

(** ** What [GetDocument] returns *)

Lemma latestRow_max (rows : list DocumentRow) :
  match latestRow rows with
  | Some r => r ∈ rows /\ forall r', r' ∈ rows -> row_ts r' <= row_ts r
  | None => rows = []
  end.
Proof.
  induction rows as [|a rest IH]; simpl; [reflexivity|].
  destruct (latestRow rest) as [best|].
  - destruct IH as [Hb Hmax]. case_decide.
    + split; [apply elem_of_cons; auto|]. intros r' Hr'.
      apply elem_of_cons in Hr' as [->|Hr']; [lia|].
      specialize (Hmax r' Hr'). lia.
    + split; [apply elem_of_cons; auto|]. intros r' Hr'.
      apply elem_of_cons in Hr' as [->|Hr']; [lia | auto].
  - subst rest. split; [apply elem_of_cons; auto|]. intros r' Hr'.
    apply elem_of_cons in Hr' as [->|Hr']; [lia | inversion Hr'].
Qed.

(** A read as of [ts] returns a version only if it is the scan of a row of
    the document with [ts] at or below the cut, not flagged deleted, that
    no visible row of the document exceeds; it returns nothing only if
    the document has no row at or below the cut, or a visible row that none
    exceeds is flagged deleted. *)
Theorem GetDocument_atTS_spec (db : Database) (tableID docID : string)
    (ts : Timestamp) :
  match GetDocument db tableID docID (Some ts) with
  | Some d =>
      exists r, r ∈ documents db /\ d = scanDocument r
        /\ row_table_id r = tableID /\ row_id r = docID /\ row_ts r <= ts
        /\ docDeleted d = false
        /\ forall r', r' ∈ documents db -> row_table_id r' = tableID ->
             row_id r' = docID -> row_ts r' <= ts -> row_ts r' <= row_ts r
  | None =>
      (forall r, r ∈ documents db -> row_table_id r = tableID ->
         row_id r = docID -> ts < row_ts r)
      \/ exists r, r ∈ documents db /\ row_table_id r = tableID
           /\ row_id r = docID /\ row_ts r <= ts /\ row_deleted r = 1
           /\ forall r', r' ∈ documents db -> row_table_id r' = tableID ->
                row_id r' = docID -> row_ts r' <= ts -> row_ts r' <= row_ts r
  end.
Proof.
  unfold GetDocument, LatestDocumentAtTSQuery.
  pose proof (latestRow_max (filter
    (λ r, row_table_id r = tableID ∧ row_id r = docID ∧ row_ts r <= ts)
    (documents db))) as H.
  destruct (latestRow _) as [r|].
  - destruct H as [Hr Hmax].
    apply list_elem_of_filter in Hr as [(Ht & Hi & Hle) Hr].
    assert (Hm : forall r', r' ∈ documents db -> row_table_id r' = tableID ->
              row_id r' = docID -> row_ts r' <= ts -> row_ts r' <= row_ts r).
    { intros r' Hr' Ht' Hi' Hle'. apply Hmax, list_elem_of_filter. auto. }
    destruct (docDeleted (scanDocument r)) eqn:E.
    + right. exists r. repeat split; auto.
      simpl in E. apply bool_decide_eq_true in E. exact E.
    + exists r. repeat split; auto.
  - left. intros r Hr Ht Hi.
    destruct (decide (row_ts r <= ts)) as [Hle|]; [|lia].
    assert (Hin : r ∈ filter
      (λ r, row_table_id r = tableID ∧ row_id r = docID ∧ row_ts r <= ts)
      (documents db)) by (apply list_elem_of_filter; auto).
    rewrite H in Hin. inversion Hin.
Qed.

(** With a nil [atTS], a version that is returned is the scan of a row of
    the document with [deleted = 0], and no row of the document with
    [deleted = 0] has a greater [ts]. *)
Theorem GetDocument_nil_sound (db : Database) (tableID docID : string)
    (d : DocumentLogEntry) :
  GetDocument db tableID docID None = Some d ->
  exists r, r ∈ documents db /\ d = scanDocument r
    /\ row_table_id r = tableID /\ row_id r = docID
    /\ row_deleted r = 0 /\ docDeleted d = false
    /\ forall r', r' ∈ documents db -> row_table_id r' = tableID ->
         row_id r' = docID -> row_deleted r' = 0 ->
         row_ts r' <= row_ts r.
Proof.
  unfold GetDocument, LatestDocumentQuery.
  pose proof (latestRow_max (filter
    (λ r, row_table_id r = tableID ∧ row_id r = docID ∧ row_deleted r = 0)
    (documents db))) as H.
  destruct (latestRow _) as [r|]; [|discriminate].
  destruct H as [Hr Hmax].
  apply list_elem_of_filter in Hr as [(Ht & Hi & Hdel) Hr].
  assert (E : docDeleted (scanDocument r) = false).
  { simpl. apply bool_decide_eq_false. lia. }
  rewrite E. intros [= <-]. exists r. repeat split; auto.
  intros r' Hr' Ht' Hi' Hdel'. apply Hmax, list_elem_of_filter. auto.
Qed.

Lemma GetDocument_nil_sound_witness :
  exists r, r ∈ documents createdIssueStore /\ issueOpen = scanDocument r.
Proof.
  destruct (GetDocument_nil_sound createdIssueStore "issues" "bd-1" issueOpen)
    as (r & Hr & Hd & _).
  - vm_compute. reflexivity.
  - exists r. auto.
Defined.

(** ** Reads as of [t] do not see later writes *)

Lemma filter_none {A : Type} (P : A -> Prop) `{!forall x, Decision (P x)}
    (l : list A) :
  (forall x, x ∈ l -> ~ P x) -> filter P l = [].
Proof.
  induction l as [|a l IH]; intros Hno; [reflexivity|].
  rewrite filter_cons_False by (apply Hno, elem_of_cons; auto).
  apply IH. intros x Hx. apply Hno, elem_of_cons. auto.
Qed.

Lemma insertIndexes_indexes (idxs : list IndexEntry) :
  forall tx tx', insertIndexes tx idxs = inr tx' ->
    exists rows,
      indexes tx' = indexes tx ++ rows
      /\ forall r, r ∈ rows -> exists i, i ∈ idxs /\ irow_ts r = idxTS i.
Proof.
  induction idxs as [|i0 rest IH]; intros tx tx' Hrun; simpl in Hrun.
  - injection Hrun as <-. exists []. rewrite app_nil_r.
    split; [reflexivity|]. intros r Hr. inversion Hr.
  - destruct (execInsertIndex tx _ _ _ _ _ _) as [e|tx1] eqn:E;
      [discriminate|].
    apply execInsertIndex_inr in E as (k & _ & _ & Hi1 & _).
    destruct (IH _ _ Hrun) as (rows & Hrows & Hts).
    eexists (_ :: rows). rewrite Hrows, Hi1, <- app_assoc. simpl.
    split; [reflexivity|]. intros r Hr.
    apply elem_of_cons in Hr as [->|Hr].
    + exists i0. split; [apply elem_of_cons; auto | reflexivity].
    + destruct (Hts r Hr) as (i & Hi & E). exists i.
      split; [apply elem_of_cons; auto | exact E].
Qed.

(** What any [Write] does to the two logs: it appends rows whose
    timestamps are timestamps of the batch (no rows when it fails). *)
Lemma Write_appends (db : Database) (docs : list DocumentLogEntry)
    (idxs : list IndexEntry) :
  exists drows irows,
    documents (Write db docs idxs).2 = documents db ++ drows
    /\ indexes (Write db docs idxs).2 = indexes db ++ irows
    /\ persistence_globals (Write db docs idxs).2 = persistence_globals db
    /\ (forall r, r ∈ drows -> exists d, d ∈ docs /\ row_ts r = docTS d)
    /\ (forall r, r ∈ irows -> exists i, i ∈ idxs /\ irow_ts r = idxTS i).
Proof.
  assert (Hnone : exists drows irows : list _,
    documents db = documents db ++ drows
    /\ indexes db = indexes db ++ irows
    /\ persistence_globals db = persistence_globals db
    /\ (forall r, r ∈ drows -> exists d, d ∈ docs /\ row_ts r = docTS d)
    /\ (forall r, r ∈ irows -> exists i, i ∈ idxs /\ irow_ts r = idxTS i)).
  { exists [], []. rewrite !app_nil_r. repeat split; intros r Hr; inversion Hr. }
  unfold Write, writeTx.
  destruct (insertDocuments db docs) as [e|tx] eqn:Edocs; [exact Hnone|].
  apply insertDocuments_inr in Edocs as (Hd & Hi & Hg & _).
  assert (Hdts : forall r, r ∈ documentRow <$> docs ->
            exists d, d ∈ docs /\ row_ts r = docTS d).
  { intros r Hr. apply list_elem_of_fmap in Hr as (d & -> & Hd0). eauto. }
  case_decide.
  - destruct (insertIndexes tx idxs) as [e|tx'] eqn:Eidx; [exact Hnone|].
    destruct (insertIndexes_indexes _ _ _ Eidx) as (irows & Hirows & Hits).
    apply insertIndexes_inr in Eidx as [Hd' Hg']. simpl.
    exists (documentRow <$> docs), irows.
    repeat split; auto; congruence.
  - simpl. exists (documentRow <$> docs), [].
    rewrite app_nil_r. repeat split; auto.
    intros r Hr. inversion Hr.
Qed.

(** A batch all of whose documents are later than [t] does not change
    what [GetDocument] returns as of [t], whether the write succeeds or
    not. *)
Theorem GetDocument_atTS_ignores_later_writes (db : Database)
    (docs : list DocumentLogEntry) (idxs : list IndexEntry) (t : Timestamp)
    (tableID docID : string) :
  (forall d, d ∈ docs -> t < docTS d) ->
  GetDocument (Write db docs idxs).2 tableID docID (Some t)
  = GetDocument db tableID docID (Some t).
Proof.
  intros Hlater.
  destruct (Write_appends db docs idxs) as (drows & irows & Hd & _ & _ & Hts & _).
  unfold GetDocument, LatestDocumentAtTSQuery. rewrite Hd, filter_app.
  rewrite (filter_none _ drows); [rewrite app_nil_r; reflexivity|].
  intros r Hr (_ & _ & Hle).
  destruct (Hts r Hr) as (d & Hdin & E). specialize (Hlater d Hdin). lia.
Qed.

Lemma GetDocument_atTS_ignores_later_writes_witness :
  GetDocument (Write createdIssueStore [issueTombstone] []).2
    "issues" "bd-1" (Some 150)
  = GetDocument createdIssueStore "issues" "bd-1" (Some 150).
Proof.
  apply GetDocument_atTS_ignores_later_writes.
  intros d Hd. apply list_elem_of_singleton in Hd as ->. simpl. lia.
Defined.

Lemma maxLiveTS_at_most (db : Database) (table_id id : string)
    (read_ts m : Z) :
  maxLiveTS db table_id id read_ts = Some m -> m <= read_ts.
Proof.
  unfold maxLiveTS.
  assert (Hall : Forall (λ r, row_ts r <= read_ts) (filter
    (λ r, row_table_id r = table_id ∧ row_id r = id
          ∧ row_ts r <= read_ts ∧ row_deleted r = 0) (documents db))).
  { apply Forall_forall. intros r Hr.
    apply list_elem_of_filter in Hr as [(_ & _ & Hle & _) _]. exact Hle. }
  revert m Hall. generalize (filter
    (λ r, row_table_id r = table_id ∧ row_id r = id
          ∧ row_ts r <= read_ts ∧ row_deleted r = 0) (documents db)).
  intros l. induction l as [|a l IH]; intros m Hall; simpl; [discriminate|].
  apply Forall_cons in Hall as [Ha Hl].
  destruct (foldr _ None l) as [m'|] eqn:E; intros [= <-]; [|exact Ha].
  specialize (IH m' Hl eq_refl). lia.
Qed.

(** Rows later than [t], appended to the two logs, change nothing in the
    queries evaluated at [read_ts = t]. *)
Lemma index_queries_ignore_later_rows (db db' : Database) (t : Z)
    (drows : list DocumentRow) (irows : list IndexRow) :
  documents db' = documents db ++ drows ->
  indexes db' = indexes db ++ irows ->
  (forall r, r ∈ drows -> t < row_ts r) ->
  (forall r, r ∈ irows -> t < irow_ts r) ->
  (forall index_id startKey endKey order limit,
     indexScanRows db' index_id startKey endKey t order limit
     = indexScanRows db index_id startKey endKey t order limit)
  /\ (forall index_id key,
        IndexGetQuery db' index_id key t = IndexGetQuery db index_id key t).
Proof.
  intros Hd Hi Hdl Hil.
  assert (Hmax : forall table_id id,
            maxLiveTS db' table_id id t = maxLiveTS db table_id id t).
  { intros table_id id. unfold maxLiveTS. rewrite Hd, filter_app.
    rewrite (filter_none _ drows); [rewrite app_nil_r; reflexivity|].
    intros r Hr (_ & _ & Hle & _). specialize (Hdl r Hr). lia. }
  assert (Hjoin : forall i, joinDocuments db' t i = joinDocuments db t i).
  { intros i. unfold joinDocuments. rewrite Hmax, Hd, filter_app.
    rewrite (filter_none _ drows); [rewrite app_nil_r; reflexivity|].
    intros r Hr (_ & _ & _ & Hm). symmetry in Hm.
    apply maxLiveTS_at_most in Hm. specialize (Hdl r Hr). lia. }
  split.
  - intros index_id startKey endKey order limit.
    unfold indexScanRows, latestIndexScan. rewrite Hi, filter_app.
    rewrite (filter_none _ irows).
    + rewrite app_nil_r. do 2 f_equal.
      apply list_bind_ext; [|reflexivity]. intros irn. apply Hjoin.
    + intros r Hr (_ & _ & Hle). specialize (Hil r Hr). lia.
  - intros index_id key. unfold IndexGetQuery. rewrite Hi, filter_app.
    rewrite (filter_none _ irows).
    + rewrite app_nil_r. destruct (latestIndexRow _) as [i|]; [|reflexivity].
      rewrite Hjoin. reflexivity.
    + intros r Hr (_ & _ & Hle). specialize (Hil r Hr). lia.
Qed.

(** A batch all of whose documents and index entries are later than the
    read timestamp in effect ([now] when [readTS] is 0) changes the result
    of no index scan and of no index point read at that timestamp. *)
Theorem index_reads_ignore_later_writes (db : Database)
    (docs : list DocumentLogEntry) (idxs : list IndexEntry)
    (now readTS t : Timestamp) :
  t = (if decide (readTS = 0) then now else readTS) ->
  (forall d, d ∈ docs -> t < docTS d) ->
  (forall i, i ∈ idxs -> t < idxTS i) ->
  (forall indexID interval order limit,
     IndexScan (Write db docs idxs).2 now indexID interval readTS order limit
     = IndexScan db now indexID interval readTS order limit)
  /\ (forall indexID key,
        IndexGet (Write db docs idxs).2 now indexID key readTS
        = IndexGet db now indexID key readTS).
Proof.
  intros Ht Hdocs Hidxs.
  destruct (Write_appends db docs idxs)
    as (drows & irows & Hd & Hi & _ & Hdts & Hits).
  destruct (index_queries_ignore_later_rows db (Write db docs idxs).2 t
              drows irows Hd Hi) as [Hscan Hget].
  - intros r Hr. destruct (Hdts r Hr) as (d & Hdin & ->). auto.
  - intros r Hr. destruct (Hits r Hr) as (i & Hiin & ->). auto.
  - split.
    + intros indexID interval order limit.
      unfold IndexScan, IndexScanQuery. rewrite <- Ht, Hscan. reflexivity.
    + intros indexID key. unfold IndexGet. rewrite <- Ht, Hget. reflexivity.
Qed.

Lemma index_reads_ignore_later_writes_witness :
  IndexScan (Write createdIssueStore [issueTombstone] []).2 1000
    "issues_by_status" (Prefix openKey) 150 Asc 10
  = IndexScan createdIssueStore 1000 "issues_by_status" (Prefix openKey)
      150 Asc 10.
Proof.
  apply (index_reads_ignore_later_writes createdIssueStore [issueTombstone]
           [] 1000 150 150).
  - reflexivity.
  - intros d Hd. apply list_elem_of_singleton in Hd as ->. simpl. lia.
  - intros i Hi. inversion Hi.
Defined.

(** ** When a [Write] commits, and what it commits *)

Lemma Exists_sameDocumentKey (r : DocumentRow) (rows : list DocumentRow) :
  Exists (sameDocumentKey r) rows <-> rowKey r ∈ rowKey <$> rows.
Proof.
  rewrite Exists_exists, list_elem_of_fmap. unfold sameDocumentKey, rowKey.
  split.
  - intros (x & Hx & H1 & H2 & H3). exists x. split; [congruence | exact Hx].
  - intros (x & Heq & Hx). injection Heq as H1 H2 H3. exists x. auto.
Qed.

Lemma Exists_sameIndexKey (r : IndexRow) (rows : list IndexRow) :
  Exists (sameIndexKey r) rows <-> irowKey r ∈ irowKey <$> rows.
Proof.
  rewrite Exists_exists, list_elem_of_fmap. unfold sameIndexKey, irowKey.
  split.
  - intros (x & Hx & H1 & H2 & H3). exists x. split; [congruence | exact Hx].
  - intros (x & Heq & Hx). injection Heq as H1 H2 H3. exists x. auto.
Qed.

Lemma insertDocuments_iff (docs : list DocumentLogEntry) :
  forall tx tx',
    insertDocuments tx docs = inr tx'
    <-> NoDup (docKey <$> docs)
        /\ (forall d, d ∈ docs -> docKey d ∉ rowKey <$> documents tx)
        /\ tx' = {| documents := documents tx ++ (documentRow <$> docs);
                    indexes := indexes tx;
                    persistence_globals := persistence_globals tx |}.
Proof.
  induction docs as [|d rest IH]; intros tx tx'; simpl.
  - rewrite app_nil_r. destruct tx as [ds ixs gs]. simpl. split.
    + intros [= <-]. split; [constructor|]. split; [|reflexivity].
      intros d Hd. inversion Hd.
    + intros (_ & _ & ->). reflexivity.
  - unfold execInsertDocument.
    destruct (decide (Exists (sameDocumentKey (documentRow d)) (documents tx)))
      as [Hex|Hex].
    + split; [discriminate|]. intros (_ & Hfresh & _).
      apply Exists_sameDocumentKey in Hex.
      destruct (Hfresh d ltac:(apply elem_of_cons; auto)). exact Hex.
    + rewrite Exists_sameDocumentKey in Hex. rewrite IH. simpl.
      rewrite NoDup_cons, <- app_assoc. simpl.
      change (rowKey (documentRow d)) with (docKey d) in Hex.
      split.
      * intros (Hnd & Hfresh & ->). split; [split; [|exact Hnd]|].
        -- intros Hin. apply list_elem_of_fmap in Hin as (d' & E & Hd').
           apply (Hfresh d' Hd'). rewrite fmap_app, elem_of_app. right.
           simpl. apply list_elem_of_singleton. symmetry. exact E.
        -- split; [|reflexivity]. intros d' Hd'.
           apply elem_of_cons in Hd' as [->|Hd']; [exact Hex|].
           intros Hin. apply (Hfresh d' Hd').
           rewrite fmap_app, elem_of_app. auto.
      * intros ([Hnin Hnd] & Hfresh & ->). split; [exact Hnd|].
        split; [|reflexivity]. intros d' Hd' Hin.
        rewrite fmap_app, elem_of_app in Hin. destruct Hin as [Hin|Hin].
        -- apply (Hfresh d' ltac:(apply elem_of_cons; auto)). exact Hin.
        -- simpl in Hin. apply list_elem_of_singleton in Hin.
           apply Hnin, list_elem_of_fmap. exists d'. auto.
Qed.

(** The rows the index loop stores for a list of entries. *)
Lemma insertIndexes_iff (idxs : list IndexEntry) :
  forall tx tx',
    insertIndexes tx idxs = inr tx'
    <-> NoDup (idxPrimaryKey <$> idxs)
        /\ (forall i, i ∈ idxs ->
              is_Some (idxKey i)
              /\ idxPrimaryKey i ∉ irowKey <$> indexes tx)
        /\ tx' = {| documents := documents tx;
                    indexes := indexes tx
                      ++ omap (λ i, indexRow i <$> idxKey i) idxs;
                    persistence_globals := persistence_globals tx |}.
Proof.
  induction idxs as [|i rest IH]; intros tx tx'; simpl.
  - rewrite app_nil_r. destruct tx as [ds ixs gs]. simpl. split.
    + intros [= <-]. split; [constructor|]. split; [|reflexivity].
      intros i Hi. inversion Hi.
    + intros (_ & _ & ->). reflexivity.
  - unfold execInsertIndex. destruct (idxKey i) as [k|] eqn:Ek.
    2:{ split; [discriminate|]. intros (_ & Hfresh & _).
        destruct (Hfresh i ltac:(apply elem_of_cons; auto)) as [[k Hk] _].
        congruence. }
    fold (indexRow i k).
    assert (Hkey : irowKey (indexRow i k) = idxPrimaryKey i).
    { unfold irowKey, idxPrimaryKey. simpl. rewrite Ek. reflexivity. }
    destruct (decide (Exists (sameIndexKey (indexRow i k)) (indexes tx)))
      as [Hex|Hex].
    + split; [discriminate|]. intros (_ & Hfresh & _).
      apply Exists_sameIndexKey in Hex. rewrite Hkey in Hex.
      destruct (Hfresh i ltac:(apply elem_of_cons; auto)) as [_ Hn].
      destruct (Hn Hex).
    + rewrite Exists_sameIndexKey, Hkey in Hex. rewrite IH. simpl.
      rewrite NoDup_cons, <- app_assoc. simpl.
      split.
      * intros (Hnd & Hfresh & ->). split; [split; [|exact Hnd]|].
        -- intros Hin. apply list_elem_of_fmap in Hin as (i' & E & Hi').
           destruct (Hfresh i' Hi') as [_ Hn]. apply Hn.
           rewrite fmap_app, elem_of_app. right. simpl.
           apply list_elem_of_singleton. rewrite Hkey. symmetry. exact E.
        -- split; [|reflexivity]. intros i' Hi'.
           apply elem_of_cons in Hi' as [->|Hi'];
             [split; [eauto | exact Hex]|].
           destruct (Hfresh i' Hi') as [Hs Hn]. split; [exact Hs|].
           intros Hin. apply Hn. rewrite fmap_app, elem_of_app. auto.
      * intros ([Hnin Hnd] & Hfresh & ->). split; [exact Hnd|].
        split; [|reflexivity]. intros i' Hi'.
        destruct (Hfresh i' ltac:(apply elem_of_cons; auto)) as [Hs Hn].
        split; [exact Hs|]. intros Hin.
        rewrite fmap_app, elem_of_app in Hin. destruct Hin as [Hin|Hin].
        -- apply Hn, Hin.
        -- simpl in Hin. apply list_elem_of_singleton in Hin.
           rewrite Hkey in Hin.
           apply Hnin, list_elem_of_fmap. exists i'. auto.
Qed.

Lemma writeTx_loops (tx : Database) (docs : list DocumentLogEntry)
    (idxs : list IndexEntry) :
  writeTx tx docs idxs
  = match insertDocuments tx docs with
    | inl err => inl err
    | inr tx' => insertIndexes tx' idxs
    end.
Proof.
  unfold writeTx. destruct (insertDocuments tx docs) as [e|tx']; [reflexivity|].
  case_decide as Hlen; [reflexivity|].
  destruct idxs; [reflexivity | simpl in Hlen; lia].
Qed.

Lemma Write_result_iff (db db' : Database) (docs : list DocumentLogEntry)
    (idxs : list IndexEntry) :
  Write db docs idxs = (None, db')
  <-> NoDup (docKey <$> docs)
      /\ (forall d, d ∈ docs -> docKey d ∉ rowKey <$> documents db)
      /\ NoDup (idxPrimaryKey <$> idxs)
      /\ (forall i, i ∈ idxs ->
            is_Some (idxKey i)
            /\ idxPrimaryKey i ∉ irowKey <$> indexes db)
      /\ db' = {| documents := documents db ++ (documentRow <$> docs);
                  indexes := indexes db
                    ++ omap (λ i, indexRow i <$> idxKey i) idxs;
                  persistence_globals := persistence_globals db |}.
Proof.
  unfold Write. rewrite writeTx_loops.
  destruct (insertDocuments db docs) as [e|tx] eqn:Edocs.
  - split; [discriminate|]. intros (Hnd & Hfresh & _).
    assert (Hok : exists tx, insertDocuments db docs = inr tx)
      by (eexists; apply insertDocuments_iff; eauto).
    destruct Hok as [tx Htx]. congruence.
  - apply insertDocuments_iff in Edocs as (Hnd & Hfresh & ->).
    destruct (insertIndexes _ idxs) as [e|tx'] eqn:Eidx.
    + split; [discriminate|]. intros (_ & _ & Hind & Hifresh & _).
      assert (Hok : exists tx', insertIndexes
                {| documents := documents db ++ (documentRow <$> docs);
                   indexes := indexes db;
                   persistence_globals := persistence_globals db |} idxs
                = inr tx') by (eexists; apply insertIndexes_iff; eauto).
      destruct Hok as [tx' Htx']. congruence.
    + apply insertIndexes_iff in Eidx as (Hind & Hifresh & ->). simpl in *.
      split.
      * intros [= <-]. auto.
      * intros (_ & _ & _ & _ & ->). reflexivity.
Qed.

(** [Write] commits exactly the batches whose documents have pairwise
    distinct primary keys, none of them in the store, and whose index
    entries have non-nil keys and pairwise distinct primary keys, none of
    them in the store; what it commits is the store with the batch's rows
    appended, in order, to the two logs. *)
Theorem Write_commits_iff (db db' : Database) (docs : list DocumentLogEntry)
    (idxs : list IndexEntry) :
  Write db docs idxs = (None, db')
  <-> NoDup (docKey <$> docs)
      /\ (forall d, d ∈ docs -> docKey d ∉ rowKey <$> documents db)
      /\ NoDup (idxPrimaryKey <$> idxs)
      /\ (forall i, i ∈ idxs ->
            is_Some (idxKey i)
            /\ idxPrimaryKey i ∉ irowKey <$> indexes db)
      /\ db' = {| documents := documents db ++ (documentRow <$> docs);
                  indexes := indexes db
                    ++ omap (λ i, indexRow i <$> idxKey i) idxs;
                  persistence_globals := persistence_globals db |}.
Proof. apply Write_result_iff. Qed.

(** The primary keys of [Schema] are an invariant of [Write]: from a store
    whose rows have pairwise distinct keys, every [Write], committed or
    not, leaves such a store. *)
Theorem Write_keeps_uniqueKeys (db : Database) (docs : list DocumentLogEntry)
    (idxs : list IndexEntry) :
  uniqueKeys db -> uniqueKeys (Write db docs idxs).2.
Proof.
  intros [Hd Hi].
  destruct (Write db docs idxs) as [[e|] db'] eqn:E.
  - unfold Write in E. destruct (writeTx db docs idxs); [|discriminate].
    injection E as _ <-. split; assumption.
  - apply Write_result_iff in E as (Hnd & Hfresh & Hind & Hifresh & ->).
    split; simpl.
    + rewrite fmap_app. apply NoDup_app. split; [exact Hd|].
      split.
      * intros k Hk Hk'. rewrite <- list_fmap_compose in Hk'.
        apply list_elem_of_fmap in Hk' as (d & -> & Hdin).
        apply (Hfresh d Hdin), Hk.
      * rewrite <- list_fmap_compose. exact Hnd.
    + assert (Hkeys : forall l : list IndexEntry,
                (forall i, i ∈ l -> is_Some (idxKey i)) ->
                irowKey <$> omap (λ i, indexRow i <$> idxKey i) l
                = idxPrimaryKey <$> l).
      { induction l as [|i l IH]; intros Hs; [reflexivity|]. simpl.
        destruct (Hs i ltac:(apply elem_of_cons; auto)) as [k Hk].
        rewrite Hk. simpl. f_equal.
        - unfold irowKey, idxPrimaryKey. simpl. rewrite Hk. reflexivity.
        - apply IH. intros i' Hi'. apply Hs, elem_of_cons. auto. }
      rewrite fmap_app, Hkeys by (intros i Hiin; apply Hifresh, Hiin).
      apply NoDup_app. split; [exact Hi|]. split; [|exact Hind].
      intros k Hk Hk'. apply list_elem_of_fmap in Hk' as (i & -> & Hiin).
      apply (Hifresh i Hiin), Hk.
Qed.

Lemma Write_keeps_uniqueKeys_witness :
  uniqueKeys (Write createdIssueStore [issueTombstone] []).2.
Proof.
  apply Write_keeps_uniqueKeys.
  split; vm_compute; repeat constructor; intros H; inversion H; subst;
    match goal with H' : _ ∈ [] |- _ => inversion H' end.
Defined.

(** The logs are append-only: after any [Write] the rows that were in the
    store are still there, in place, before any new row, and the globals
    are untouched; [WriteGlobal] changes neither log. *)
Theorem logs_are_append_only (db : Database) (docs : list DocumentLogEntry)
    (idxs : list IndexEntry) (key value : string) :
  documents db `prefix_of` documents (Write db docs idxs).2
  /\ indexes db `prefix_of` indexes (Write db docs idxs).2
  /\ persistence_globals (Write db docs idxs).2 = persistence_globals db
  /\ documents (WriteGlobal db key value) = documents db
  /\ indexes (WriteGlobal db key value) = indexes db.
Proof.
  destruct (Write_appends db docs idxs) as (drows & irows & Hd & Hi & Hg & _).
  rewrite Hd, Hi, Hg. repeat split; eexists; reflexivity.
Qed.

(** ** The order of BLOB keys *)

Lemma bytesLt_nil_l (c : byte) (k : list byte) : bytesLt [] (c :: k) = true.
Proof. reflexivity. Qed.

Lemma bytesLt_asym (a b : list byte) :
  bytesLt a b = true -> bytesLt b a = false.
Proof.
  revert b. induction a as [|x a IH]; intros [|y b]; try discriminate.
  - intros _. reflexivity.
  - rewrite !bytesLt_cons. repeat case_decide; try lia; auto; discriminate.
Qed.

Lemma bytesGe_trans (a b c : list byte) :
  bytesLt b a = false -> bytesLt c b = false -> bytesLt c a = false.
Proof.
  revert b c. induction a as [|x a IH]; intros b c.
  - intros _ _. apply bytesLt_nil_r.
  - destruct b as [|y b]; [discriminate|].
    destruct c as [|z c]; [discriminate|].
    rewrite !bytesLt_cons. repeat case_decide; try lia; try discriminate; auto.
    apply IH.
Qed.

Lemma bytesLt_total (a b : list byte) :
  bytesLt a b = false -> bytesLt b a = false -> a = b.
Proof.
  revert b. induction a as [|x a IH]; intros [|y b]; try discriminate.
  - reflexivity.
  - rewrite !bytesLt_cons. repeat case_decide; try lia; try discriminate.
    intros Hab Hba. f_equal; [apply byteVal_inj; lia | apply IH; assumption].
Qed.

(** ** The order and the keys of an index scan *)

Lemma insertByKey_sorted (order : Order) (x : IndexRow * DocumentRow)
    (l : list (IndexRow * DocumentRow)) :
  StronglySorted (λ a b, keyInOrder order (irow_key a.1) (irow_key b.1)) l ->
  StronglySorted (λ a b, keyInOrder order (irow_key a.1) (irow_key b.1))
    (insertByKey order x l).
Proof.
  assert (Hasym : forall a b, keyBefore order a b = true ->
                    keyInOrder order a b).
  { intros a b. unfold keyInOrder. destruct order; apply bytesLt_asym. }
  assert (Htrans : forall a b c, keyInOrder order a b ->
                     keyInOrder order b c -> keyInOrder order a c).
  { intros a b c. unfold keyInOrder. destruct order; simpl; intros H1 H2.
    - exact (bytesGe_trans a b c H1 H2).
    - exact (bytesGe_trans c b a H2 H1). }
  induction l as [|y l IH]; intros Hs; simpl.
  - repeat constructor.
  - apply StronglySorted_cons in Hs as [Hy Hl].
    destruct (keyBefore order (irow_key y.1) (irow_key x.1)) eqn:E.
    + apply StronglySorted_cons. split; [|apply IH, Hl].
      apply Forall_forall. intros z Hz.
      apply insertByKey_elem_of in Hz as [->|Hz]; [apply Hasym, E|].
      rewrite Forall_forall in Hy. apply Hy, Hz.
    + apply StronglySorted_cons. split.
      * apply Forall_cons. split; [exact E|].
        rewrite Forall_forall in Hy |- *. intros z Hz.
        exact (Htrans _ _ _ E (Hy z Hz)).
      * apply StronglySorted_cons. auto.
Qed.

Lemma orderByKey_sorted (order : Order) (l : list (IndexRow * DocumentRow)) :
  StronglySorted (λ a b, keyInOrder order (irow_key a.1) (irow_key b.1))
    (orderByKey order l).
Proof.
  unfold orderByKey. induction l as [|x l IH]; simpl; [constructor|].
  apply insertByKey_sorted, IH.
Qed.

(** The rows of an index scan come in the order of their index keys:
    no row's key is after (for [Asc]; before, for [Desc]) the key of a
    row that follows it, in the byte order of keys. *)
Theorem indexScanRows_sorted (db : Database) (index_id : string)
    (startKey : list byte) (endKey : option (list byte)) (read_ts : Z)
    (order : Order) (limit : Z) :
  StronglySorted (λ a b, keyInOrder order (irow_key a.1) (irow_key b.1))
    (indexScanRows db index_id startKey endKey read_ts order limit).
Proof.
  unfold indexScanRows.
  match goal with
  | |- context [orderByKey order ?rows] =>
      pose proof (orderByKey_sorted order rows) as Hs;
      revert Hs; generalize (orderByKey order rows)
  end.
  intros sorted Hs. unfold limitRows. case_decide; [exact Hs|].
  rewrite <- (take_drop (Z.to_nat limit) sorted) in Hs.
  exact (StronglySorted_app_1_l _ _ _ Hs).
Qed.









(** ** Index keys and the intervals built from them *)

Lemma keyInInterval_Prefix (p k : list byte) :
  p <> [] -> (keyInInterval (Prefix p) k = true <-> p `prefix_of` k).
Proof.
  intros Hp. rewrite (Prefix_unfold p Hp). unfold keyInInterval. simpl.
  apply keyInRange_prefixSucc.
Qed.

Lemma bytesOf_app (s1 s2 : string) :
  bytesOf (s1 +:+ s2) = bytesOf s1 ++ bytesOf s2.
Proof.
  unfold bytesOf, String.list_byte_of_string.
  induction s1 as [|a s1 IH]; simpl; [reflexivity|].
  f_equal. exact IH.
Qed.

Lemma bytesOf_inj (s t : string) : bytesOf s = bytesOf t -> s = t.
Proof.
  unfold bytesOf. intros H.
  rewrite <- (String.string_of_list_byte_of_string s),
    <- (String.string_of_list_byte_of_string t), H.
  reflexivity.
Qed.

Lemma StatusIndexKey_bytes (s : string) :
  StatusIndexKey s = bytesOf s ++ [Byte.x00].
Proof. unfold StatusIndexKey. rewrite bytesOf_app. reflexivity. Qed.

(** The five text encoders are one function. *)
Lemma text_index_keys_agree (s : string) :
  TypeIndexKey s = StatusIndexKey s /\ ParentIndexKey s = StatusIndexKey s
  /\ AssigneeIndexKey s = StatusIndexKey s
  /\ LabelIndexKey s = StatusIndexKey s.
Proof. repeat split. Qed.

Lemma StatusIndexKey_inj (s t : string) :
  StatusIndexKey s = StatusIndexKey t -> s = t.
Proof.
  rewrite !StatusIndexKey_bytes. intros H.
  apply app_inj_tail in H as [H _]. apply bytesOf_inj, H.
Qed.

(** The sentinel makes the prefix interval of a text key exact: among the
    keys of values that contain no [0x00] byte, the interval
    [Prefix (StatusIndexKey s)] holds the key of [s] and no other; a value
    of which [s] is a proper prefix is left out. *)
Theorem text_key_Prefix_exact (s t : string) :
  Byte.x00 ∉ bytesOf t ->
  (keyInInterval (Prefix (StatusIndexKey s)) (StatusIndexKey t) = true
   <-> s = t).
Proof.
  intros Hnul. rewrite keyInInterval_Prefix.
  2:{ rewrite StatusIndexKey_bytes. destruct (bytesOf s); discriminate. }
  rewrite !StatusIndexKey_bytes. split.
  - intros [u Hu]. destruct (decide (u = [])) as [->|Hne].
    + rewrite app_nil_r in Hu. apply app_inj_tail in Hu as [Hu _].
      symmetry. apply bytesOf_inj, Hu.
    + destruct (exists_last Hne) as (u' & x & ->).
      rewrite !app_assoc in Hu. apply app_inj_tail in Hu as [Hu _].
      destruct Hnul. rewrite Hu, !elem_of_app, list_elem_of_singleton. auto.
  - intros ->. reflexivity.
Qed.

Lemma text_key_Prefix_exact_witness :
  keyInInterval (Prefix (StatusIndexKey "open")) (StatusIndexKey "opened")
  = true <-> "open" = "opened".
Proof.
  apply text_key_Prefix_exact.
  vm_compute. intros H.
  repeat (apply elem_of_cons in H as [H|H]; [discriminate|]).
  inversion H.
Defined.

Lemma PriorityIndexKey_eq_iff (p q : Z) :
  PriorityIndexKey p = PriorityIndexKey q
  <-> p `mod` 2 ^ 16 = q `mod` 2 ^ 16.
Proof.
  split.
  - intros Heq.
    destruct (PriorityIndexKey_value p) as (ha & la & Ea & Va).
    destruct (PriorityIndexKey_value q) as (hb & lb & Eb & Vb).
    rewrite Ea, Eb in Heq. injection Heq as -> ->. lia.
  - intros Heq. unfold PriorityIndexKey. rewrite Heq. reflexivity.
Qed.

(** On [0 .. 65535] the priority key preserves the order: one key is
    before another in the byte order of the index exactly when its
    priority is the smaller one. *)
Theorem PriorityIndexKey_order (p q : Z) :
  0 <= p < 2 ^ 16 -> 0 <= q < 2 ^ 16 ->
  (bytesLt (PriorityIndexKey p) (PriorityIndexKey q) = true <-> p < q).
Proof.
  intros Hp Hq.
  destruct (PriorityIndexKey_value p) as (ha & la & -> & Va).
  destruct (PriorityIndexKey_value q) as (hb & lb & -> & Vb).
  rewrite Z.mod_small in Va, Vb by lia.
  pose proof (byteVal_range ha). pose proof (byteVal_range la).
  pose proof (byteVal_range hb). pose proof (byteVal_range lb).
  rewrite !bytesLt_cons, bytesLt_nil_r.
  repeat case_decide; split; intros; try discriminate; try reflexivity; lia.
Qed.

Lemma PriorityIndexKey_order_witness :
  bytesLt (PriorityIndexKey 255) (PriorityIndexKey 256) = true <-> 255 < 256.
Proof. apply PriorityIndexKey_order; lia. Defined.

(** The interval [Prefix (PriorityIndexKey p)], which [SearchIssues] scans
    for a priority filter, holds the key of [q] exactly when [p] and [q]
    agree modulo [2^16]. *)
Theorem PriorityIndexKey_Prefix (p q : Z) :
  keyInInterval (Prefix (PriorityIndexKey p)) (PriorityIndexKey q) = true
  <-> p `mod` 2 ^ 16 = q `mod` 2 ^ 16.
Proof.
  rewrite keyInInterval_Prefix by discriminate.
  rewrite <- PriorityIndexKey_eq_iff. split.
  - intros [u Hu]. unfold PriorityIndexKey in *.
    destruct u; [rewrite app_nil_r in Hu; congruence | discriminate].
  - intros ->. reflexivity.
Qed.

(** ** The index generator *)

Lemma foldl_snoc_fmap {A B : Type} (g : A -> B) (l : list A) :
  forall acc : list B, foldl (λ acc x, acc ++ [g x]) acc l = acc ++ (g <$> l).
Proof.
  induction l as [|x l IH]; intros acc; simpl.
  - rewrite app_nil_r. reflexivity.
  - rewrite IH, <- app_assoc. reflexivity.
Qed.

(** [IndexIssue] as one concatenation, in the order of the appends. *)
Lemma IndexIssue_unfold (issue : Issue) (ts : Timestamp) :
  IndexIssue issue ts
  = (if decide (issueStatus issue ≠ "")
     then [issueIndexEntry "issues_by_status" ts
             (StatusIndexKey (issueStatus issue)) issue] else [])
    ++ [issueIndexEntry "issues_by_priority" ts
          (PriorityIndexKey (issuePriority issue)) issue]
    ++ (if decide (issueIssueType issue ≠ "")
        then [issueIndexEntry "issues_by_type" ts
                (TypeIndexKey (issueIssueType issue)) issue] else [])
    ++ (if decide (issueParent issue ≠ "")
        then [issueIndexEntry "issues_by_parent" ts
                (ParentIndexKey (issueParent issue)) issue] else [])
    ++ (if decide (issueAssignee issue ≠ "")
        then [issueIndexEntry "issues_by_assignee" ts
                (AssigneeIndexKey (issueAssignee issue)) issue] else [])
    ++ ((λ label, issueIndexEntry "issues_by_label" ts
                    (LabelIndexKey label) issue) <$> issueLabels issue).
Proof.
  unfold IndexIssue. rewrite foldl_snoc_fmap.
  repeat case_decide; simpl; rewrite <- ?app_assoc; reflexivity.
Qed.

Lemma IndexIssue_shape (issue : Issue) (ts : Timestamp) (e : IndexEntry) :
  e ∈ IndexIssue issue ts ->
  exists indexID k, e = issueIndexEntry indexID ts (k ++ [Byte.x00]) issue.
Proof.
  rewrite IndexIssue_unfold. intros He.
  repeat (apply elem_of_app in He as [He|He]).
  - case_decide; [|inversion He].
    apply list_elem_of_singleton in He as ->.
    eexists _, _. rewrite <- StatusIndexKey_bytes. reflexivity.
  - apply list_elem_of_singleton in He as ->.
    eexists _, [_; _]. reflexivity.
  - case_decide; [|inversion He].
    apply list_elem_of_singleton in He as ->.
    eexists _, _. rewrite <- StatusIndexKey_bytes. reflexivity.
  - case_decide; [|inversion He].
    apply list_elem_of_singleton in He as ->.
    eexists _, _. rewrite <- StatusIndexKey_bytes. reflexivity.
  - case_decide; [|inversion He].
    apply list_elem_of_singleton in He as ->.
    eexists _, _. rewrite <- StatusIndexKey_bytes. reflexivity.
  - apply list_elem_of_fmap in He as (label & -> & _).
    eexists _, _. rewrite <- StatusIndexKey_bytes. reflexivity.
Qed.

Lemma IndexIssue_priority_entry (issue : Issue) (ts : Timestamp) :
  issueIndexEntry "issues_by_priority" ts
    (PriorityIndexKey (issuePriority issue)) issue ∈ IndexIssue issue ts.
Proof.
  rewrite IndexIssue_unfold. apply elem_of_app. right. apply elem_of_app.
  left. apply list_elem_of_singleton. reflexivity.
Qed.

(** Every entry [IndexIssue] produces is a live entry stamped [ts] that
    points back to the issue in table ["issues"], and its key is non-nil
    and ends with the [0x00] sentinel; the priority entry is always among
    them. *)
Theorem IndexIssue_entries (issue : Issue) (ts : Timestamp) :
  (forall e, e ∈ IndexIssue issue ts ->
     idxTS e = ts /\ idxTableID e = "issues"
     /\ idxDocumentID e = issueID issue /\ idxDeleted e = false
     /\ exists k, idxKey e = Some (k ++ [Byte.x00]))
  /\ issueIndexEntry "issues_by_priority" ts
       (PriorityIndexKey (issuePriority issue)) issue ∈ IndexIssue issue ts.
Proof.
  split; [|apply IndexIssue_priority_entry].
  intros e He. destruct (IndexIssue_shape _ _ _ He) as (indexID & k & ->).
  simpl. repeat split. eauto.
Qed.

Lemma IndexIssue_entries_witness :
  idxTS (issueIndexEntry "issues_by_priority" 100 (PriorityIndexKey 2)
           (mkIssue "bd-1" "open" 2 "" "" "" [])) = 100.
Proof.
  destruct (IndexIssue_entries (mkIssue "bd-1" "open" 2 "" "" "" []) 100)
    as [Hall Hprio].
  exact (proj1 (Hall _ Hprio)).
Defined.

Lemma IndexIssue_pk_NoDup (issue : Issue) (ts : Timestamp) :
  NoDup (idxPrimaryKey <$> IndexIssue issue ts) <-> NoDup (issueLabels issue).
Proof.
  rewrite IndexIssue_unfold.
  assert (Hlabels :
    idxPrimaryKey <$> ((λ label, issueIndexEntry "issues_by_label" ts
                                   (LabelIndexKey label) issue)
                         <$> issueLabels issue)
    = (λ label, ("issues_by_label", Some (LabelIndexKey label), ts))
        <$> issueLabels issue).
  { rewrite <- list_fmap_compose. reflexivity. }
  assert (Hinj : Inj (=) (=)
            (λ label : string,
               ("issues_by_label", Some (LabelIndexKey label), ts))).
  { intros a b Heq. injection Heq as Heq. apply StatusIndexKey_inj, Heq. }
  assert (Hother : forall (k : string * option (list byte) * Z),
            k ∈ (λ label : string,
                   ("issues_by_label", Some (LabelIndexKey label), ts))
                  <$> issueLabels issue ->
            k.1.1 = "issues_by_label").
  { intros k Hk. apply list_elem_of_fmap in Hk as (l & -> & _). reflexivity. }
  rewrite !fmap_app, Hlabels. split.
  - intros Hnd. repeat (apply NoDup_app in Hnd as (_ & _ & Hnd)).
    exact (NoDup_fmap_1 _ _ Hnd).
  - intros Hnd0.
    pose proof (NoDup_fmap_2
      (λ label : string, ("issues_by_label", Some (LabelIndexKey label), ts))
      _ Hnd0) as Hnd.
    repeat (apply NoDup_app; split; [|split]); try exact Hnd;
      repeat case_decide;
      try (repeat constructor; intros H'; inversion H'; fail);
      intros k Hk Hk';
      try (apply list_elem_of_singleton in Hk as ->);
      try (inversion Hk; fail);
      repeat (apply elem_of_app in Hk' as [Hk'|Hk']);
      try (inversion Hk'; fail);
      try (apply list_elem_of_singleton in Hk'; discriminate);
      try (apply Hother in Hk'; discriminate).
Qed.

(** The primary keys of the entries of one issue are pairwise distinct
    exactly when its labels are: a label listed twice gives two entries
    with one [(index_id, key, ts)]. *)
Theorem IndexIssue_keys_NoDup_iff (issue : Issue) (ts : Timestamp) :
  NoDup (idxPrimaryKey <$> IndexIssue issue ts) <-> NoDup (issueLabels issue).
Proof. apply IndexIssue_pk_NoDup. Qed.

(** ** The adapter's writes *)

Lemma Write_error_keeps (db db' : Database) (docs : list DocumentLogEntry)
    (idxs : list IndexEntry) (err : WriteError) :
  Write db docs idxs = (Some err, db') -> db' = db.
Proof.
  unfold Write. destruct (writeTx db docs idxs); intros [= _ <-]; reflexivity.
Qed.

Lemma Write_none_iff (db : Database) (docs : list DocumentLogEntry)
    (idxs : list IndexEntry) :
  (Write db docs idxs).1 = None
  <-> exists db', Write db docs idxs = (None, db').
Proof.
  destruct (Write db docs idxs) as [[e|] db'] eqn:E; simpl.
  - split; [discriminate | intros [? [=]]].
  - split; eauto.
Qed.

(** [CreateIssue] commits exactly when the issue serialises, no version
    of the issue is stamped with the clock's value, the issue's labels are
    pairwise distinct, and none of its index keys is already in the index
    log at that timestamp. *)
Theorem CreateIssue_commits_iff (jsonMarshal : Issue → option string)
    (clock : Timestamp) (db : Database) (issue : Issue) :
  (CreateIssue jsonMarshal clock db issue).1 = None
  <-> is_Some (jsonMarshal issue)
      /\ ((clock, "issues", issueID issue) ∉ (rowKey <$> documents db))
      /\ NoDup (issueLabels issue)
      /\ forall e, e ∈ IndexIssue issue clock ->
           idxPrimaryKey e ∉ irowKey <$> indexes db.
Proof.
  unfold CreateIssue. destruct (jsonMarshal issue) as [v|]; simpl.
  2:{ split; [discriminate | intros [[? [=]] _]]. }
  unfold liftWrite. simpl.
  destruct (Write db _ (IndexIssue issue clock)) as [[e|] db'] eqn:E; simpl.
  - split; [discriminate|]. intros (_ & Hdoc & Hlabels & Hidx). exfalso.
    assert (Hok : exists db'', Write db
      [{| docTS := clock; docID := issueID issue; docTableID := "issues";
          docValue := Some v; docDeleted := false; docPrevTS := None |}]
      (IndexIssue issue clock) = (None, db'')).
    { eexists. apply Write_result_iff. split; [|split; [|split; [|split]]].
      - repeat constructor. intros H. inversion H.
      - intros d Hd. apply list_elem_of_singleton in Hd as ->. exact Hdoc.
      - apply IndexIssue_pk_NoDup, Hlabels.
      - intros i Hi. split; [|apply Hidx, Hi].
        destruct (IndexIssue_shape _ _ _ Hi) as (indexID & k & ->).
        simpl. eauto.
      - reflexivity. }
    destruct Hok as [db'' Hok]. congruence.
  - split; [|reflexivity]. intros _.
    apply Write_result_iff in E as (_ & Hdoc & Hnd & Hidx & _).
    split; [eauto|]. split.
    + apply (Hdoc _ ltac:(apply list_elem_of_singleton; reflexivity)).
    + split; [apply IndexIssue_pk_NoDup in Hnd; exact Hnd|].
      intros e0 He0. apply Hidx, He0.
Qed.

Lemma foldl_AddIndex (idxs : list IndexEntry) :
  forall batch,
    foldl AddIndex batch idxs
    = {| batchDocuments := batchDocuments batch;
         batchIndexes := batchIndexes batch ++ idxs |}.
Proof.
  induction idxs as [|i rest IH]; intros [ds ixs]; simpl.
  - rewrite app_nil_r. reflexivity.
  - rewrite IH. simpl. rewrite <- app_assoc. reflexivity.
Qed.

Lemma createIssuesBatch_indexes (jsonMarshal : Issue → option string)
    (ts : Timestamp) (issues : list Issue) :
  forall batch batch',
    createIssuesBatch jsonMarshal ts batch issues = inr batch' ->
    batchIndexes batch'
    = batchIndexes batch ++ (issues ≫= λ issue, IndexIssue issue ts).
Proof.
  induction issues as [|issue rest IH]; intros batch batch' Hrun;
    simpl in Hrun.
  - injection Hrun as <-. rewrite app_nil_r. reflexivity.
  - destruct (jsonMarshal issue) as [v|]; [|discriminate].
    apply IH in Hrun. rewrite Hrun, foldl_AddIndex. simpl.
    rewrite <- app_assoc. reflexivity.
Qed.

(** [CreateIssues] stamps the whole batch with one timestamp, and every
    issue gets a priority entry: a batch with two issues whose priorities
    agree modulo [2^16] never commits.  It returns an error and the store
    is as before. *)
Theorem CreateIssues_equal_priorities_fail
    (jsonMarshal : Issue → option string) (clock : Timestamp)
    (db : Database) (l1 l2 l3 : list Issue) (a b : Issue) :
  issuePriority a `mod` 2 ^ 16 = issuePriority b `mod` 2 ^ 16 ->
  exists err,
    CreateIssues jsonMarshal clock db (l1 ++ a :: l2 ++ b :: l3)
    = (Some err, db).
Proof.
  intros Hprio. unfold CreateIssues.
  rewrite decide_False by (rewrite length_app; simpl; lia).
  destruct (createIssuesBatch _ _ _ _) as [err|batch] eqn:Ebatch; [eauto|].
  apply createIssuesBatch_indexes in Ebatch. simpl in Ebatch.
  unfold liftWrite.
  destruct (Write db (batchDocuments batch) (batchIndexes batch))
    as [[e|] db'] eqn:E; simpl.
  - apply Write_error_keeps in E as ->. eauto.
  - exfalso. apply Write_result_iff in E as (_ & _ & Hnd & _).
    rewrite Ebatch, bind_app, bind_cons, bind_app, bind_cons in Hnd.
    rewrite !fmap_app in Hnd.
    apply NoDup_app in Hnd as (_ & _ & Hnd).
    apply NoDup_app in Hnd as (_ & Hdisj & _).
    apply (Hdisj (idxPrimaryKey (issueIndexEntry "issues_by_priority" clock
                    (PriorityIndexKey (issuePriority a)) a))).
    + apply list_elem_of_fmap_2, IndexIssue_priority_entry.
    + apply elem_of_app. right. apply elem_of_app. left.
      apply list_elem_of_fmap.
      exists (issueIndexEntry "issues_by_priority" clock
                (PriorityIndexKey (issuePriority b)) b).
      split; [|apply IndexIssue_priority_entry].
      unfold idxPrimaryKey. simpl.
      apply PriorityIndexKey_eq_iff in Hprio. rewrite Hprio. reflexivity.
Qed.

Lemma CreateIssues_equal_priorities_fail_witness :
  exists err,
    CreateIssues (λ _, Some "{}") 100 emptyDatabase
      ([] ++ mkIssue "bd-1" "open" 2 "" "" "" []
          :: [] ++ mkIssue "bd-2" "closed" 2 "" "" "" [] :: [])
    = (Some err, emptyDatabase).
Proof. apply CreateIssues_equal_priorities_fail. reflexivity. Defined.

(** When every version of the issue is older than the clock's value,
    [DeleteIssue] commits, writes no index entry, and from that timestamp
    on every read as of a timestamp finds the issue deleted. *)
Theorem DeleteIssue_hides_issue (clock : Timestamp) (db : Database)
    (id : string) :
  (forall r, r ∈ documents db -> row_table_id r = "issues" ->
     row_id r = id -> row_ts r < clock) ->
  exists db',
    DeleteIssue clock db id = (None, db')
    /\ indexes db' = indexes db
    /\ forall t, clock <= t -> GetDocument db' "issues" id (Some t) = None.
Proof.
  intros Hold. unfold DeleteIssue, liftWrite.
  set (doc := {| docTS := clock; docID := id; docTableID := "issues";
                 docValue := None; docDeleted := true; docPrevTS := None |}).
  assert (Hw : Write db [doc] []
               = (None, {| documents := documents db ++ [documentRow doc];
                           indexes := indexes db ++ [];
                           persistence_globals := persistence_globals db |})).
  { apply Write_result_iff. split; [|split; [|split; [|split]]].
    - repeat constructor. intros H. inversion H.
    - intros d Hd. apply list_elem_of_singleton in Hd as ->.
      intros Hin. apply list_elem_of_fmap in Hin as (r & Heq & Hr).
      injection Heq as Hts Ht Hi.
      specialize (Hold r Hr (eq_sym Ht) (eq_sym Hi)). simpl in Hts. lia.
    - constructor.
    - intros i Hi. inversion Hi.
    - reflexivity. }
  rewrite Hw. simpl. eexists. split; [reflexivity|].
  split; [apply app_nil_r|].
  intros t Ht.
  pose proof (GetDocument_atTS_latest
    {| documents := documents db ++ [documentRow doc];
       indexes := indexes db ++ [];
       persistence_globals := persistence_globals db |}
    (documentRow doc) t) as G.
  simpl in G. apply G.
  - apply elem_of_app. right. apply list_elem_of_singleton. reflexivity.
  - exact Ht.
  - intros r' Hr' Ht' Hi' _.
    apply elem_of_app in Hr' as [Hr'|Hr'].
    + right. apply Hold; assumption.
    + left. apply list_elem_of_singleton in Hr'. exact Hr'.
Qed.

Lemma DeleteIssue_hides_issue_witness :
  exists db',
    DeleteIssue 200 createdIssueStore "bd-1" = (None, db')
    /\ indexes db' = indexes createdIssueStore
    /\ forall t, 200 <= t -> GetDocument db' "issues" "bd-1" (Some t) = None.
Proof.
  apply DeleteIssue_hides_issue.
  intros r Hr _ _. vm_compute in Hr.
  apply list_elem_of_singleton in Hr as ->. simpl. lia.
Defined.

(** ** Globals and opening *)

(** A global reads back what was last written under its key; writing one
    key changes the reading of no other key. *)
Theorem GetGlobal_WriteGlobal (db : Database) (key key' value : string) :
  GetGlobal (WriteGlobal db key value) key'
  = if decide (key = key') then Some value else GetGlobal db key'.
Proof.
  unfold GetGlobal, WriteGlobal, execSetGlobal. simpl.
  case_decide as Hk.
  - subst key'. apply lookup_insert_eq.
  - apply lookup_insert_ne, Hk.
Qed.


(** ** [MaxTimestamp] and [DocumentCount] of the reader *)

(** The reader's [MaxTimestamp] is 0 on an empty document log; otherwise
    it is the [ts] of some row and no row has a greater one. *)
Theorem ReaderMaxTimestamp_spec (db : Database) :
  (documents db = [] -> ReaderMaxTimestamp db = 0)
  /\ (documents db <> [] ->
      (exists r, r ∈ documents db /\ row_ts r = ReaderMaxTimestamp db)
      /\ forall r, r ∈ documents db -> row_ts r <= ReaderMaxTimestamp db).
Proof.
  unfold ReaderMaxTimestamp, MaxTimestampQuery.
  split; [intros ->; reflexivity|].
  generalize (documents db). intros l Hne.
  induction l as [|a l IH]; [congruence|]. simpl.
  destruct l as [|b l'].
  - simpl. split; [exists a; split; [apply elem_of_cons; auto | reflexivity]|].
    intros r Hr. apply list_elem_of_singleton in Hr as ->. lia.
  - destruct (IH ltac:(discriminate)) as [(r & Hr & Er) Hmax]. clear IH.
    destruct (foldr _ None (b :: l')) as [m|] eqn:Em; [|discriminate].
    simpl in *. subst m. split.
    + destruct (Z.max_spec (row_ts a) (row_ts r)) as [[_ ->]|[_ ->]].
      * exists r. split; [apply elem_of_cons; auto | reflexivity].
      * exists a. split; [apply elem_of_cons; auto | reflexivity].
    + intros r' Hr'. apply elem_of_cons in Hr' as [->|Hr']; [lia|].
      specialize (Hmax r' Hr'). lia.
Qed.

Lemma ReaderMaxTimestamp_spec_witness :
  ReaderMaxTimestamp emptyDatabase = 0
  /\ forall r, r ∈ documents deletedIssueStore ->
       row_ts r <= ReaderMaxTimestamp deletedIssueStore.
Proof.
  split.
  - apply (proj1 (ReaderMaxTimestamp_spec emptyDatabase)). reflexivity.
  - apply (proj2 (ReaderMaxTimestamp_spec deletedIssueStore)).
    vm_compute. discriminate.
Defined.

Lemma remove_dups_length_mono {A : Type} `{!EqDecision A} (l k : list A) :
  (length (remove_dups l) <= length (remove_dups (l ++ k)))%nat.
Proof.
  apply submseteq_length, NoDup_submseteq; [apply NoDup_remove_dups|].
  intros x. rewrite !elem_of_remove_dups, elem_of_app. auto.
Qed.

(** [DocumentCount] never decreases: whatever a [Write] adds, tombstones
    included, the count of a table after it is at least the count before.
    A deleted document keeps being counted. *)
Theorem DocumentCount_never_decreases (db : Database)
    (docs : list DocumentLogEntry) (idxs : list IndexEntry)
    (tableID : string) :
  DocumentCount db tableID <= DocumentCount (Write db docs idxs).2 tableID.
Proof.
  destruct (Write_appends db docs idxs) as (drows & _ & Hd & _).
  unfold DocumentCount, DocumentCountQuery.
  rewrite Hd, filter_app, fmap_app.
  apply inj_le, remove_dups_length_mono.
Qed.

(** ** Comment ids *)

(** For one issue, comments stamped with different timestamps get different
    ids. *)
Theorem generateCommentID_inj (issueID : string) (ts1 ts2 : Timestamp) :
  generateCommentID issueID ts1 = generateCommentID issueID ts2 -> ts1 = ts2.
Proof.
  unfold generateCommentID. intros H.
  apply (inj (String.app issueID)) in H.
  apply (inj (String.app "-")) in H.
  apply (inj pretty) in H. exact H.
Qed.

Lemma generateCommentID_inj_witness :
  Z.of_nat (String.length (generateCommentID "bd-1" 7)) = 6 /\ 3 + 4 = 7.
Proof.
  split; [reflexivity|].
  apply (generateCommentID_inj "bd-1" (3 + 4) 7). reflexivity.
Defined.

(** ** Witnesses for the index scan lemmas *)

Lemma IndexScan_at_most_limit_witness :
  (length (IndexScan createdIssueStore 1000%Z "issues_by_status" All 150%Z
             Asc 0%Z)
   <= Z.to_nat 0)%nat.
Proof. apply IndexScan_at_most_limit. lia. Defined.


(** ** [IndexGet] and [IndexScan] agree *)

Lemma latestIndexRow_split (rows : list IndexRow) (i : IndexRow) :
  latestIndexRow rows = Some i ->
  exists l1 l2,
    rows = l1 ++ i :: l2
    /\ (forall j, j ∈ l1 -> irow_ts j < irow_ts i)
    /\ (forall j, j ∈ l2 -> irow_ts j <= irow_ts i).
Proof.
  revert i. induction rows as [|a rest IH]; intros i; simpl; [discriminate|].
  destruct (latestIndexRow rest) as [best|] eqn:E.
  - destruct (IH best eq_refl) as (l1 & l2 & -> & H1 & H2).
    case_decide as Hle; intros [= <-].
    + exists [], (l1 ++ best :: l2). split; [reflexivity|].
      split; [intros j Hj; inversion Hj|].
      intros j Hj. apply elem_of_app in Hj as [Hj|Hj].
      * specialize (H1 j Hj). lia.
      * apply elem_of_cons in Hj as [->|Hj]; [lia|].
        specialize (H2 j Hj). lia.
    + exists (a :: l1), l2. split; [reflexivity|]. split; [|exact H2].
      intros j Hj. apply elem_of_cons in Hj as [->|Hj]; [lia | auto].
  - intros [= <-]. destruct rest as [|b rest'].
    + exists [], []. repeat split; intros j Hj; inversion Hj.
    + simpl in E. destruct (latestIndexRow rest'); [case_decide|]; discriminate.
Qed.

Lemma filter_split {A : Type} (P : A -> Prop) `{!forall x, Decision (P x)}
    (l : list A) :
  forall g1 x g2, filter P l = g1 ++ x :: g2 ->
    exists m1 m2, l = m1 ++ x :: m2 /\ filter P m1 = g1 /\ filter P m2 = g2.
Proof.
  induction l as [|a l IH]; intros g1 x g2 Hf.
  - destruct g1; discriminate.
  - rewrite filter_cons in Hf. case_decide as Ha.
    + destruct g1 as [|b g1]; simpl in Hf; injection Hf as -> Hf.
      * exists [], l. auto.
      * destruct (IH _ _ _ Hf) as (m1 & m2 & -> & <- & <-).
        exists (b :: m1), m2. rewrite filter_cons_True by exact Ha. auto.
    + destruct (IH _ _ _ Hf) as (m1 & m2 & -> & <- & <-).
      exists (a :: m1), m2. rewrite filter_cons_False by exact Ha. auto.
Qed.

Lemma rowNumbers_at (l1 l2 : list IndexRow) (i : IndexRow) :
  forall before,
    (i, 1 + Z.of_nat (length (filter
              (λ j, samePartition j i ∧ irow_ts i <= irow_ts j)
              (before ++ l1)))
          + Z.of_nat (length (filter
              (λ j, samePartition j i ∧ irow_ts i < irow_ts j) l2)))
    ∈ rowNumbers before (l1 ++ i :: l2).
Proof.
  induction l1 as [|a l1 IH]; intros before; simpl.
  - rewrite app_nil_r. apply elem_of_cons. auto.
  - apply elem_of_cons. right.
    specialize (IH (before ++ [a])). rewrite <- app_assoc in IH. exact IH.
Qed.

(** What [IndexGet] finds under a key, an unlimited [IndexScan] of an
    interval that holds the key returns too. *)
Theorem IndexGet_in_IndexScan (db : Database) (now : Timestamp)
    (indexID : string) (key : list byte) (readTS : Timestamp)
    (interval : Interval) (order : Order) (limit : Z)
    (d : DocumentLogEntry) :
  IndexGet db now indexID (Some key) readTS = Some d ->
  keyInInterval interval key = true -> limit < 0 ->
  {| resKey := None; resDocument := Some d |}
    ∈ IndexScan db now indexID interval readTS order limit.
Proof.
  unfold IndexGet, IndexScan, keyInInterval.
  set (t := if decide (readTS = 0) then now else readTS).
  set (startKey := default [] (IntervalStart interval)).
  set (endKey := IntervalEnd interval).
  intros Hget Hin Hlimit.
  destruct (IndexGetQuery db indexID (Some key) t) as [r|] eqn:Eq;
    [|discriminate].
  injection Hget as <-.
  apply (list_elem_of_fmap_2
           (λ r, {| resKey := None; resDocument := Some (scanDocument r) |})).
  unfold IndexGetQuery in Eq.
  destruct (latestIndexRow _) as [i|] eqn:Ei; [|discriminate].
  case_decide as Hdel; [|discriminate].
  apply latestIndexRow_split in Ei as (g1 & g2 & Hsplit & Hg1 & Hg2).
  assert (Hi : irow_index_id i = indexID /\ irow_key i = key
               /\ irow_ts i <= t).
  { assert (Hmem : i ∈ g1 ++ i :: g2)
      by (apply elem_of_app; right; apply elem_of_cons; auto).
    rewrite <- Hsplit in Hmem.
    apply list_elem_of_filter in Hmem as [(H1 & H2 & H3) _].
    injection H2 as H2. auto. }
  destruct Hi as (Hid & Hkey & Hts).
  apply filter_split in Hsplit as (m1 & m2 & Hidx & Hm1 & Hm2).
  (* the row is numbered 1 in its partition of the scan's CTE *)
  assert (Hwin : (i, 1) ∈ latestIndexScan db indexID startKey endKey t).
  { unfold latestIndexScan. rewrite Hidx, filter_app, filter_cons_True
      by (rewrite Hkey; auto).
    set (F1 := filter (λ i0, irow_index_id i0 = indexID
                   ∧ keyInRange startKey endKey (irow_key i0) = true
                   ∧ irow_ts i0 <= t) m1).
    set (F2 := filter (λ i0, irow_index_id i0 = indexID
                   ∧ keyInRange startKey endKey (irow_key i0) = true
                   ∧ irow_ts i0 <= t) m2).
    pose proof (rowNumbers_at F1 F2 i []) as Hat.
    assert (C1 : filter (λ j, samePartition j i ∧ irow_ts i <= irow_ts j)
                   ([] ++ F1) = []).
    { apply filter_none. intros j Hj [[Hsid Hsk] Hle]. simpl in Hj.
      apply list_elem_of_filter in Hj as [(Hjid & _ & Hjts) Hj].
      assert (Hjg : j ∈ g1).
      { rewrite <- Hm1. apply list_elem_of_filter.
        split; [|exact Hj]. repeat split; congruence. }
      specialize (Hg1 j Hjg). lia. }
    assert (C2 : filter (λ j, samePartition j i ∧ irow_ts i < irow_ts j) F2
                 = []).
    { apply filter_none. intros j Hj [[Hsid Hsk] Hlt].
      apply list_elem_of_filter in Hj as [(Hjid & _ & Hjts) Hj].
      assert (Hjg : j ∈ g2).
      { rewrite <- Hm2. apply list_elem_of_filter.
        split; [|exact Hj]. repeat split; congruence. }
      specialize (Hg2 j Hjg). lia. }
    rewrite C1, C2 in Hat. exact Hat. }
  apply head_Some_elem_of, list_elem_of_fmap in Eq as ([i' r'] & -> & Hjoin).
  assert (Hi' : i' = i).
  { unfold joinDocuments in Hjoin.
    apply list_elem_of_fmap in Hjoin as (d0 & [= -> _] & _). reflexivity. }
  subst i'. simpl.
  unfold IndexScanQuery. apply (list_elem_of_fmap_2 snd _ (i, r')).
  unfold indexScanRows, limitRows. rewrite decide_True by exact Hlimit.
  apply orderByKey_elem_of, list_elem_of_bind. exists (i, 1).
  split; [exact Hjoin|].
  apply list_elem_of_filter. split; [split; [reflexivity | exact Hdel]|].
  exact Hwin.
Qed.

Lemma IndexGet_in_IndexScan_witness :
  {| resKey := None; resDocument := Some issueOpen |}
    ∈ IndexScan deletedIssueStore 1000 "issues_by_status" (Prefix openKey)
        250 Asc (-1).
Proof.
  apply (IndexGet_in_IndexScan deletedIssueStore 1000 "issues_by_status"
           openKey 250 (Prefix openKey) Asc (-1) issueOpen).
  - vm_compute. reflexivity.
  - vm_compute. reflexivity.
  - lia.
Defined.
